(** * Waveform generator: sampler, modulator, sequence generator, ASCII renderer

    A shallow embedding of the computational kernel of [main.c]
    ([sample_base_waveform], the [*_plot] table and plot loops, [run_AM],
    [run_FM], [run_PWM] and [print_ascii_from_yvals]).

    The C code computes on [float].  The program is written once, over an
    interface [FloatOps] of the operations it uses, and is read under two
    interpretations:
    - [Exact]: real numbers, the arithmetic in which the documentation
      states its formulas (no rounding, no NaN, no infinities);
    - [B32]: IEEE 754 binary32 with round-to-nearest-even, executable.
    [int] values stay far from the limits of their type on every path that
    is modelled ([0 <= i < 100], [rows - 1] with [rows > 0]) and are plain
    [Z].  [malloc] is taken to succeed.  The texts of the menus and the
    [%.6f] text of the table are left out: a display routine yields the
    numbers of its table, its buffer of plot values and the lines the
    renderer prints.  What the user types reaches the handlers as the
    values [scanf] stores and the line [fgets] reads; [sscanf]'s
    [%lf] conversion is the C library's and is taken as given. *)

From Stdlib Require Import ZArith List String Ascii Bool Lia.
From Stdlib Require Import Reals Lra.
From Stdlib Require Import Floats.SpecFloat.
Import ListNotations.

Set Implicit Arguments.

(** ** The float operations the program uses *)

Class FloatOps (F : Type) : Type := {
  FofZ   : Z -> F;            (* an [int] converted to [float]; [n.0f] *)
  Fhalf  : F;                 (* the literal [0.5f] *)
  FPI    : F;                 (* the macro [PI] *)
  Fadd   : F -> F -> F;
  Fsub   : F -> F -> F;
  Fmul   : F -> F -> F;
  Fdiv   : F -> F -> F;
  Fopp   : F -> F;
  Fabs   : F -> F;            (* [fabsf] *)
  Fltb   : F -> F -> bool;    (* [<]  *)
  Fleb   : F -> F -> bool;    (* [<=] *)
  Feqb   : F -> F -> bool;    (* [==] *)
  Fsin   : F -> F;            (* [sinf]  *)
  Ffmod  : F -> F -> F;       (* [fmodf] *)
  Ftrunc : F -> Z             (* the cast [(int)] *)
}.

Declare Scope cfloat_scope.
Delimit Scope cfloat_scope with cf.
Notation "x + y" := (Fadd x y) : cfloat_scope.
Notation "x - y" := (Fsub x y) : cfloat_scope.
Notation "x * y" := (Fmul x y) : cfloat_scope.
Notation "x / y" := (Fdiv x y) : cfloat_scope.
Notation "- x" := (Fopp x) : cfloat_scope.
Notation "x <? y" := (Fltb x y) : cfloat_scope.
Notation "x <=? y" := (Fleb x y) : cfloat_scope.
Notation "x >? y" := (Fltb y x) : cfloat_scope.
Notation "x =? y" := (Feqb x y) : cfloat_scope.
Notation "x <>? y" := (negb (Feqb x y)) (at level 70, no associativity) : cfloat_scope.
(* [# n] is the literal [n.0f], or the conversion [(float) n]. *)
Notation "# n" := (FofZ n%Z) (at level 1, n at level 0, format "# n") : cfloat_scope.

(** ** Constants *)

Definition DEFAULT_SAMPLES : Z := 100.
Definition TABLE_SAMPLES : Z := 8.
Definition ASCII_ROWS : Z := 21.

(** ** Global state: the static variables of the C file *)

Record config (F : Type) : Type := {
  fre_sin : F; fre_squ : F; fre_saw : F; fre_tra : F;
  amp_sin : F; amp_squ : F; amp_saw : F; amp_tra : F;
  phase_sin : F;
  duty_cycle : F; slope : F
}.

(** [for (int i = 0; i < n; i++) body(i)], collecting what each turn
    produces. *)
Definition for_range (A : Type) (n : Z) (body : Z -> A) : list A :=
  map (fun i => body (Z.of_nat i)) (seq 0 (Z.to_nat n)).

Section Program.

Context {F : Type} {ops : FloatOps F}.
Local Open Scope cfloat_scope.

(** *** Sampler *)

Definition sample_base_waveform (st : config F) (waveform_type : Z) (t : F) : F :=
  match waveform_type with
  | 1%Z =>
      amp_sin st * Fsin (#2 * FPI * fre_sin st * t + phase_sin st)
  | 2%Z =>
      if fre_squ st <=? #0 then #0 else
      let T := #1 / fre_squ st in
      let pos := Ffmod t T / T in
      if pos <? duty_cycle st then amp_squ st else - amp_squ st
  | 3%Z =>
      if fre_tra st <=? #0 then #0 else
      let T := #1 / fre_tra st in
      let pos := Ffmod t T / T in
      if pos <? Fhalf then - amp_tra st + #4 * amp_tra st * pos
      else #3 * amp_tra st - #4 * amp_tra st * pos
  | 4%Z =>
      if fre_saw st <=? #0 then #0 else
      let T := #1 / fre_saw st in
      let frac := Ffmod t T / T in
      - amp_saw st + #2 * amp_saw st * frac
  | _ => #0
  end.

(** *** Renderer *)

(** What one call of [print_ascii_from_yvals] does: the lines it prints
    (none when it returns at its first guard), or a read past the end of
    [yvals], which C leaves undefined. *)
Inductive outcome : Type :=
  | Printed (lines : list string)
  | OutOfBounds.

Definition canvas : Type := list (list ascii).

Definition blank : ascii := " "%char.
Definition star : ascii := "*"%char.
Definition dash : ascii := "-"%char.

Fixpoint update (A : Type) (n : nat) (x : A) (l : list A) : list A :=
  match l, n with
  | [], _ => []
  | _ :: l', O => x :: l'
  | a :: l', S n' => a :: update n' x l'
  end.

(** [canvas[row][c]] *)
Definition get_cell (cv : canvas) (row c : Z) : ascii :=
  nth (Z.to_nat c) (nth (Z.to_nat row) cv []) blank.

(** [canvas[row][c] = ch] *)
Definition set_cell (cv : canvas) (row c : Z) (ch : ascii) : canvas :=
  update (Z.to_nat row) (update (Z.to_nat c) ch (nth (Z.to_nat row) cv [])) cv.

(** The row a value is drawn on: the body of the first column loop. *)
Definition value_row (rows : Z) (amp y : F) : Z :=
  let frac := Fhalf in
  let frac := if amp <>? #0 then (amp - y) / (#2 * amp) else frac in
  let frac := if frac <? #0 then #0 else frac in
  let frac := if frac >? #1 then #1 else frac in
  let row := Ftrunc (frac * #(rows - 1) + Fhalf) in
  let row := if (row <? 0)%Z then 0%Z else row in
  let row := if (row >=? rows)%Z then (rows - 1)%Z else row in
  row.

(** The row of the axis line. *)
Definition mid_row (rows : Z) (amp : F) : Z :=
  let mid_row :=
    Ftrunc (((amp - #0) / (#2 * (if amp =? #0 then #1 else amp)))
            * #(rows - 1) + Fhalf) in
  let mid_row := if (mid_row <? 0)%Z then 0%Z else mid_row in
  let mid_row := if (mid_row >=? rows)%Z then (rows - 1)%Z else mid_row in
  mid_row.

(** [for (c ...) { y = yvals[c]; ...; canvas[row][c] = '*'; }] *)
Fixpoint plot_values (yvals : list F) (rows : Z) (amp : F)
    (columns : list Z) (cv : canvas) : option canvas :=
  match columns with
  | [] => Some cv
  | c :: columns' =>
      match nth_error yvals (Z.to_nat c) with
      | None => None
      | Some y =>
          plot_values yvals rows amp columns'
            (set_cell cv (value_row rows amp y) c star)
      end
  end.

(** [for (c ...) if (canvas[mid_row][c] == ' ') canvas[mid_row][c] = '-';] *)
Definition draw_axis (mid : Z) (columns : list Z) (cv : canvas) : canvas :=
  fold_left
    (fun cv c =>
       if Ascii.eqb (get_cell cv mid c) blank then set_cell cv mid c dash
       else cv)
    columns cv.

Definition columns_of (cols : Z) : list Z := for_range cols (fun c => c).

Definition print_ascii_from_yvals (yvals : option (list F)) (cols rows : Z)
    (amp : F) : outcome :=
  match yvals with
  | None => Printed []
  | Some yv =>
      if ((cols <=? 0) || (rows <=? 0))%Z then Printed [] else
      let cv := repeat (repeat blank (Z.to_nat cols)) (Z.to_nat rows) in
      match plot_values yv rows amp (columns_of cols) cv with
      | None => OutOfBounds
      | Some cv =>
          let cv := draw_axis (mid_row rows amp) (columns_of cols) cv in
          Printed (map string_of_list_ascii cv)
      end
  end.

(** *** Table and plot of the four base waveforms *)

(** What a display routine produces: the rows [(t, y)] of its table, the
    buffer of plot values, and what the renderer does with that buffer. *)
Record display : Type := {
  table : list (F * F);
  yval : list F;
  plot : outcome
}.

(** [None]: the routine prints "Frequency must be > 0!" and returns. *)
Definition sine_plot (st : config F) : option display :=
  if fre_sin st <=? #0 then None else
  let period := #1 / fre_sin st in
  let table_step := period / #TABLE_SAMPLES in
  let tbl :=
    for_range TABLE_SAMPLES (fun i =>
      let t := #i * table_step in
      let y := amp_sin st * Fsin (#2 * FPI * fre_sin st * t + phase_sin st) in
      (t, y)) in
  let N := DEFAULT_SAMPLES in
  let rows := ASCII_ROWS in
  let plot_step := period / #N in
  let time_shift :=
    if fre_sin st <>? #0 then phase_sin st / (#2 * FPI * fre_sin st)
    else #0 in
  let yv :=
    for_range N (fun i =>
      let t := #i * plot_step + time_shift in
      amp_sin st * Fsin (#2 * FPI * fre_sin st * t)) in
  Some {| table := tbl; yval := yv;
          plot := print_ascii_from_yvals (Some yv) N rows (amp_sin st) |}.

Definition square_plot (st : config F) : option display :=
  if fre_squ st <=? #0 then None else
  let period := #1 / fre_squ st in
  let table_step := period / #TABLE_SAMPLES in
  let tbl :=
    for_range TABLE_SAMPLES (fun i =>
      let t := #i * table_step in
      (t, sample_base_waveform st 2 t)) in
  let N := DEFAULT_SAMPLES in
  let plot_step := period / #N in
  let yv :=
    for_range N (fun i =>
      let t := #i * plot_step in sample_base_waveform st 2 t) in
  Some {| table := tbl; yval := yv;
          plot := print_ascii_from_yvals (Some yv) N ASCII_ROWS (amp_squ st) |}.

Definition triangle_plot (st : config F) : option display :=
  if fre_tra st <=? #0 then None else
  let period := #1 / fre_tra st in
  let table_step := period / #TABLE_SAMPLES in
  let tbl :=
    for_range TABLE_SAMPLES (fun i =>
      let t := #i * table_step in
      (t, sample_base_waveform st 3 t)) in
  let N := DEFAULT_SAMPLES in
  let plot_step := period / #N in
  let yv :=
    for_range N (fun i =>
      let t := #i * plot_step in sample_base_waveform st 3 t) in
  Some {| table := tbl; yval := yv;
          plot := print_ascii_from_yvals (Some yv) N ASCII_ROWS (amp_tra st) |}.

Definition sawtooth_plot (st : config F) : option display :=
  if fre_saw st <=? #0 then None else
  let period := #1 / fre_saw st in
  let table_step := period / #TABLE_SAMPLES in
  let tbl :=
    for_range TABLE_SAMPLES (fun i =>
      let t := #i * table_step in
      (t, sample_base_waveform st 4 t)) in
  let N := DEFAULT_SAMPLES in
  let plot_step := period / #N in
  let yv :=
    for_range N (fun i =>
      let t := #i * plot_step in sample_base_waveform st 4 t) in
  Some {| table := tbl; yval := yv;
          plot := print_ascii_from_yvals (Some yv) N ASCII_ROWS (amp_saw st) |}.

(** *** Modulation *)

(** The six sample loops of [run_AM], [run_FM] and [run_PWM] each open
    with the same block: sample the base waveform, look its amplitude up by
    kind, divide.  [amp_base_of] is the [switch] of that block and
    [xnorm_at] the block's value of [xnorm]. *)
Definition amp_base_of (st : config F) (waveform_type : Z) : F :=
  match waveform_type with
  | 1%Z => amp_sin st
  | 2%Z => amp_squ st
  | 3%Z => amp_tra st
  | 4%Z => amp_saw st
  | _ => #1
  end.

Definition xnorm_at (st : config F) (waveform_type : Z) (t : F) : F :=
  let xt := sample_base_waveform st waveform_type t in
  let amp_base := amp_base_of st waveform_type in
  if amp_base <>? #0 then xt / amp_base else #0.

(** [float period = (fc > 0.0f) ? 1.0f / fc : 1.0f;] *)
Definition carrier_period (fc : F) : F :=
  if fc >? #0 then #1 / fc else #1.

Definition AM_sample (st : config F) (waveform_type : Z) (Ac fc m t : F) : F :=
  let xnorm := xnorm_at st waveform_type t in
  let env := #1 + m * xnorm in
  let carrier := Fsin (#2 * FPI * fc * t) in
  (Ac * env) * carrier.

Definition run_AM (st : config F) (waveform_type : Z) (Ac fc m : F) : display :=
  let period := carrier_period fc in
  let table_step := period / #TABLE_SAMPLES in
  let tbl :=
    for_range TABLE_SAMPLES (fun i =>
      let t := #i * table_step in (t, AM_sample st waveform_type Ac fc m t)) in
  let N := DEFAULT_SAMPLES in
  let plot_step := period / #N in
  let y :=
    for_range N (fun i =>
      let t := #i * plot_step in AM_sample st waveform_type Ac fc m t) in
  {| table := tbl; yval := y;
     plot := print_ascii_from_yvals (Some y) N ASCII_ROWS (Ac * (#1 + Fabs m)) |}.

Definition FM_sample (st : config F) (waveform_type : Z) (Ac fc beta t : F) : F :=
  let xnorm := xnorm_at st waveform_type t in
  let inst_phase := #2 * FPI * fc * t + beta * xnorm in
  Ac * Fsin inst_phase.

Definition run_FM (st : config F) (waveform_type : Z) (Ac fc beta : F) : display :=
  let period := carrier_period fc in
  let table_step := period / #TABLE_SAMPLES in
  let tbl :=
    for_range TABLE_SAMPLES (fun i =>
      let t := #i * table_step in (t, FM_sample st waveform_type Ac fc beta t)) in
  let N := DEFAULT_SAMPLES in
  let plot_step := period / #N in
  let y :=
    for_range N (fun i =>
      let t := #i * plot_step in FM_sample st waveform_type Ac fc beta t) in
  {| table := tbl; yval := y;
     plot := print_ascii_from_yvals (Some y) N ASCII_ROWS Ac |}.

Definition PWM_sample (st : config F) (waveform_type : Z) (Ac period t : F) : F :=
  let xnorm := xnorm_at st waveform_type t in
  let carrier_frac := Ffmod t period / period in
  let tri := - #1 + #2 * carrier_frac in
  if xnorm >? tri then Ac else - Ac.

Definition run_PWM (st : config F) (waveform_type : Z) (fpwm Ac : F) : display :=
  let period := carrier_period fpwm in
  let table_step := period / #TABLE_SAMPLES in
  let tbl :=
    for_range TABLE_SAMPLES (fun i =>
      let t := #i * table_step in (t, PWM_sample st waveform_type Ac period t)) in
  let N := DEFAULT_SAMPLES in
  let plot_step := period / #N in
  let y :=
    for_range N (fun i =>
      let t := #i * plot_step in PWM_sample st waveform_type Ac period t) in
  {| table := tbl; yval := y;
     plot := print_ascii_from_yvals (Some y) N ASCII_ROWS Ac |}.

End Program.

Arguments display F : clear implicits.

(** ** Interpretation in exact arithmetic *)

Module Exact.

Definition ltb (x y : R) : bool := if Rlt_dec x y then true else false.
Definition leb (x y : R) : bool := if Rle_dec x y then true else false.
Definition eqb (x y : R) : bool := if Req_dec_T x y then true else false.

(** Truncation toward zero, as the cast [(int)] does. *)
Definition trunc (x : R) : Z :=
  if Rle_dec 0 x then Int_part x else (- Int_part (- x))%Z.

(** [fmod x y = x - n * y], [n] the quotient [x / y] truncated toward
    zero; the result has the sign of [x]. *)
Definition fmod (x y : R) : R := (x - IZR (trunc (x / y)) * y)%R.

#[global] Instance ops : FloatOps R := {|
  FofZ := IZR;
  Fhalf := (/ 2)%R;
  FPI := PI;
  Fadd := Rplus;
  Fsub := Rminus;
  Fmul := Rmult;
  Fdiv := Rdiv;
  Fopp := Ropp;
  Fabs := Rabs;
  Fltb := ltb;
  Fleb := leb;
  Feqb := eqb;
  Fsin := sin;
  Ffmod := fmod;
  Ftrunc := trunc
|}.

End Exact.

(** ** Interpretation in IEEE 754 binary32 *)

Module B32.

Definition prec : Z := 24.
Definition emax : Z := 128.

Definition float32 : Type := spec_float.

Definition of_Z (n : Z) : float32 := binary_normalize prec emax n 0 false.

(** [m * 2^e], rounded. *)
Definition mk (m e : Z) : float32 := binary_normalize prec emax m e false.

(** [fmodf]: exact; NaN when [x] is infinite or [y] is zero; the result
    has the sign of [x]. *)
Definition fmod (x y : float32) : float32 :=
  match x, y with
  | S754_nan, _ | _, S754_nan => S754_nan
  | S754_infinity _, _ => S754_nan
  | _, S754_zero _ => S754_nan
  | S754_zero _, _ => x
  | S754_finite _ _ _, S754_infinity _ => x
  | S754_finite sx mx ex, S754_finite _ my ey =>
      let e := Z.min ex ey in
      let a := (Zpos mx * 2 ^ (ex - e))%Z in
      let b := (Zpos my * 2 ^ (ey - e))%Z in
      binary_normalize prec emax (cond_Zopp sx (Z.rem a b)) e sx
  end.

Definition INT_MIN : Z := (- 2 ^ 31)%Z.
Definition INT_MAX : Z := (2 ^ 31 - 1)%Z.

(** The cast [(int)]: truncation toward zero.  C leaves the cast of a NaN,
    an infinity or a value outside the range of [int] undefined; x86-64's
    conversion instruction yields [INT_MIN] there, which is what is taken
    here. *)
Definition trunc (x : float32) : Z :=
  match x with
  | S754_zero _ => 0%Z
  | S754_finite s m e =>
      let n := cond_Zopp s (Z.shiftl (Zpos m) e) in
      if ((INT_MIN <=? n) && (n <=? INT_MAX))%Z then n else INT_MIN
  | _ => INT_MIN
  end.

Section WithSinf.

(** [sinf] comes from the C library; its results are not fixed by the
    language, so the interpretation takes it as given. *)
Variable sinf : float32 -> float32.

Definition ops : FloatOps float32 := {|
  FofZ := of_Z;
  Fhalf := mk 1 (-1);
  FPI := mk 13176795 (-22);
  Fadd := SFadd prec emax;
  Fsub := SFsub prec emax;
  Fmul := SFmul prec emax;
  Fdiv := SFdiv prec emax;
  Fopp := SFopp;
  Fabs := SFabs;
  Fltb := SFltb;
  Fleb := SFleb;
  Feqb := SFeqb;
  Fsin := sinf;
  Ffmod := fmod;
  Ftrunc := trunc
|}.

End WithSinf.

End B32.

(** ** The configuration the program starts with

    [static float fre_sin = 1.0f, ...; phase_sin = 0.0f; duty_cycle = 0.5f,
    slope = 1.0f;] *)

Definition initial_config {F : Type} {ops : FloatOps F} : config F :=
  {| fre_sin := FofZ 1; fre_squ := FofZ 1; fre_saw := FofZ 1; fre_tra := FofZ 1;
     amp_sin := FofZ 1; amp_squ := FofZ 1; amp_saw := FofZ 1; amp_tra := FofZ 1;
     phase_sin := FofZ 0;
     duty_cycle := Fhalf; slope := FofZ 1 |}.

(** What [sine()] stores: frequency, amplitude and phase of the sine. *)
Definition with_sine (F : Type) (st : config F) (fre amp phase : F) : config F :=
  {| fre_sin := fre; fre_squ := fre_squ st; fre_saw := fre_saw st;
     fre_tra := fre_tra st;
     amp_sin := amp; amp_squ := amp_squ st; amp_saw := amp_saw st;
     amp_tra := amp_tra st;
     phase_sin := phase;
     duty_cycle := duty_cycle st; slope := slope st |}.

(** The frequencies of the square, the triangle and the sawtooth. *)
Definition with_frequencies (F : Type) (st : config F) (squ tra saw : F) : config F :=
  {| fre_sin := fre_sin st; fre_squ := squ; fre_saw := saw; fre_tra := tra;
     amp_sin := amp_sin st; amp_squ := amp_squ st; amp_saw := amp_saw st;
     amp_tra := amp_tra st;
     phase_sin := phase_sin st;
     duty_cycle := duty_cycle st; slope := slope st |}.

(** Configurations used in the runs below. *)
Definition sine_frequency_zero : config R :=
  with_sine initial_config 0%R 1%R (PI / 2)%R.

Definition sine_quarter_phase : config R :=
  with_sine initial_config 1%R 1%R (PI / 2)%R.

Definition frequencies_not_positive : config R :=
  with_frequencies initial_config 0%R (-1)%R (-2)%R.

(** A canvas of [rows] lines of [cols] characters each. *)
Definition shaped (rows cols : nat) (cv : canvas) : Prop :=
  List.length cv = rows /\ Forall (fun line => List.length line = cols) cv.

(** ** The documentation's formulas, in exact arithmetic *)

Module Spec.

Local Open Scope R_scope.

(** "pos = (t mod T)/T" with "T = 1/frequency". *)
Definition position (f t : R) : R := Exact.fmod t (1 / f) / (1 / f).


(** One period of the carrier: [1 / f], and "period = 1 when the relevant
    carrier frequency is <= 0". *)
Definition period (f : R) : R := if Rle_dec f 0 then 1 else 1 / f.




End Spec.

(** ** Menu input

    A C string is the [string] of its characters before the terminating
    NUL; a pointer that may be [NULL] is an [option]. *)

Definition isdigit (c : ascii) : bool :=
  let n := nat_of_ascii c in ((48 <=? n) && (n <=? 57))%nat.

(** The C locale's [isspace]: space, and the controls from tab to
    carriage return. *)
Definition isspace (c : ascii) : bool :=
  let n := nat_of_ascii c in ((n =? 32) || ((9 <=? n) && (n <=? 13)))%nat.

(** [for (i = start; num[i] != '\0'; i++) if (!isdigit(num[i])) return 0;
    return 1;] *)
Fixpoint all_digits (num : string) : bool :=
  match num with
  | EmptyString => true
  | String c rest => if isdigit c then all_digits rest else false
  end.

Definition is_integer (num : option string) : bool :=
  match num with
  | None => false
  | Some EmptyString => false
  | Some (String c rest as s) =>
      if (Ascii.eqb c "+" || Ascii.eqb c "-")%bool then
        match rest with
        | EmptyString => false
        | _ => all_digits rest
        end
      else all_digits s
  end.

(** Modelled from the C library: [atoi] skips white space, takes an
    optional sign and the decimal digits that follow, and stops at the
    first other character.  Its result is not defined when the value does
    not fit an [int]: [None]. *)
Fixpoint skip_spaces (s : string) : string :=
  match s with
  | String c rest => if isspace c then skip_spaces rest else s
  | EmptyString => s
  end.

Fixpoint digits_value (acc : Z) (s : string) : Z :=
  match s with
  | String c rest =>
      if isdigit c
      then digits_value (10 * acc + (Z.of_nat (nat_of_ascii c) - 48)) rest
      else acc
  | EmptyString => acc
  end.

Definition atoi (s : string) : option Z :=
  let n :=
    match skip_spaces s with
    | String c rest =>
        if Ascii.eqb c "-" then (- digits_value 0 rest)%Z
        else if Ascii.eqb c "+" then digits_value 0 rest
        else digits_value 0 (String c rest)
    | EmptyString => 0%Z
    end in
  if ((B32.INT_MIN <=? n) && (n <=? B32.INT_MAX))%Z then Some n else None.

(** What [get_user_input] comes to on the words [scanf("%99s")] delivers
    one after the other: the menu item it returns; no return at all when
    the input ends first (at end of input [scanf] fails, [valid_input] is
    still 0 and the [do ... while] goes round for ever); or an [atoi]
    without a defined result. *)
Inductive selection : Type :=
  | Selected (input : Z)
  | Endless
  | Unspecified.

Fixpoint get_user_input (words : list string) : selection :=
  let menu_items := 4%Z in
  match words with
  | [] => Endless
  | input_string :: words' =>
      if is_integer (Some input_string) then
        match atoi input_string with
        | None => Unspecified
        | Some input =>
            if ((input >=? 1) && (input <=? menu_items))%Z then Selected input
            else get_user_input words'
        end
      else get_user_input words'
  end.

(** The branch [select_menu_item] takes. *)
Inductive menu_branch : Type :=
  | menu_item_1 | menu_item_2 | menu_item_3 | menu_item_4
  | wrong_number.

Definition select_menu_item (input : Z) : menu_branch :=
  match input with
  | 1%Z => menu_item_1
  | 2%Z => menu_item_2
  | 3%Z => menu_item_3
  | 4%Z => menu_item_4
  | _ => wrong_number
  end.

(** ** Phase input *)

(** The [double] operations of [parse_phase_input_to_rad], next to the
    [float] ones. *)
Class DoubleOps (F D : Type) : Type := {
  Dmul      : D -> D -> D;
  Ddiv      : D -> D -> D;
  Dnonzero  : D -> bool;      (* [b != 0.0] *)
  Dof_float : F -> D;         (* a [float] operand promoted to [double] *)
  Dto_float : D -> F          (* the cast [(float)] *)
}.

#[global] Instance Exact_double : DoubleOps R R := {|
  Dmul := Rmult;
  Ddiv := Rdiv;
  Dnonzero := fun b => negb (Exact.eqb b 0%R);
  Dof_float := fun x => x;
  Dto_float := fun x => x
|}.

(** [strncpy(s, s_in, 127); s[127] = '\0';] *)
Definition strncpy_127 (s_in : string) : string := substring 0 127 s_in.

(** The second [while]: trailing white space is cut off, walking back from
    the end. *)
Definition cut_trailing_spaces (s : string) : string :=
  string_of_list_ascii
    (rev (list_ascii_of_string (skip_spaces
       (string_of_list_ascii (rev (list_ascii_of_string s)))))).

(** [p = strstr(start, "deg"); *p = '\0';]: the text before the first
    "deg", when there is one. *)
Definition starts_with_deg (s : string) : bool :=
  match s with
  | String a (String b (String c _)) =>
      (Ascii.eqb a "d" && Ascii.eqb b "e" && Ascii.eqb c "g")%bool
  | _ => false
  end.

Fixpoint before_deg (s : string) : option string :=
  if starts_with_deg s then Some EmptyString else
  match s with
  | EmptyString => None
  | String c rest => option_map (String c) (before_deg rest)
  end.

(** [start[len-1]] and the text before it, for [len > 0]. *)
Fixpoint split_last (s : string) : option (string * ascii) :=
  match s with
  | EmptyString => None
  | String c EmptyString => Some (EmptyString, c)
  | String c rest =>
      option_map (fun p => (String c (fst p), snd p)) (split_last rest)
  end.

(** [slash = strchr(start, '/'); *slash = '\0';]: the texts before and
    after the first slash. *)
Fixpoint split_slash (s : string) : option (string * string) :=
  match s with
  | EmptyString => None
  | String c rest =>
      if Ascii.eqb c "/" then Some (EmptyString, rest)
      else option_map (fun p => (String c (fst p), snd p)) (split_slash rest)
  end.

Section PhaseInput.

Context {F D : Type} {ops : FloatOps F} {dops : DoubleOps F D}.

(** [sscanf(text, "%lf", &v) == 1] and the value stored: the C library's
    conversion, taken as given. *)
Variable sscanf_lf : string -> option D.

(** [(float)(deg * PI / 180.0f)] *)
Definition degrees_to_rad (deg : D) : F :=
  Dto_float (Ddiv (Dmul deg (Dof_float FPI)) (Dof_float (FofZ 180))).

(** The function from its third block on: "deg" somewhere, a final
    [d] or [D], a fraction, a plain number. *)
Definition parse_unprefixed (start : string) : option F :=
  match before_deg start with
  | Some text => option_map degrees_to_rad (sscanf_lf text)
  | None =>
      let suffixed :=
        match split_last start with
        | Some (text, c) =>
            if (Ascii.eqb c "d" || Ascii.eqb c "D")%bool then Some text else None
        | None => None
        end in
      match suffixed with
      | Some text => option_map degrees_to_rad (sscanf_lf text)
      | None =>
          match split_slash start with
          | Some (num, den) =>
              match sscanf_lf num with
              | Some a =>
                  match sscanf_lf den with
                  | Some b =>
                      if Dnonzero b then Some (Dto_float (Ddiv a b)) else None
                  | None => None
                  end
              | None => None
              end
          | None => option_map Dto_float (sscanf_lf start)
          end
      end
  end.

(** [None] is the return value 0; [Some rad] is the return value 1 with
    [*out_rad = rad].  [out_rad] is the address of a local of the one
    caller. *)
Definition parse_phase_input_to_rad (s_in : option string) : option F :=
  match s_in with
  | None => None
  | Some s_in =>
      let s := strncpy_127 s_in in
      let start := skip_spaces s in
      let start := cut_trailing_spaces start in
      match start with
      | String c0 (String c1 rest) =>
          if ((Ascii.eqb c0 "r" || Ascii.eqb c0 "R") && Ascii.eqb c1 ":")%bool
          then option_map Dto_float (sscanf_lf rest)
          else if ((Ascii.eqb c0 "d" || Ascii.eqb c0 "D") && Ascii.eqb c1 ":")%bool
          then option_map degrees_to_rad (sscanf_lf rest)
          else parse_unprefixed start
      | _ => parse_unprefixed start
      end
  end.

(** *** Configuration handlers

    A [scanf("%f", &x)] that stores a value is [Some] of it; one that
    returns anything but 1 is [None], and the handler falls back on its
    default. *)
Definition scanned (read : option F) (fallback : F) : F :=
  match read with
  | Some v => v
  | None => fallback
  end.

(** [line] is what [fgets] reads, [None] when it fails. *)
Definition sine (st : config F) (fre amp : option F) (line : option string) : config F :=
  let phase :=
    match line with
    | None => FofZ 0
    | Some buf =>
        match parse_phase_input_to_rad (Some buf) with
        | Some rad => rad
        | None => FofZ 0
        end
    end in
  {| fre_sin := scanned fre (FofZ 1); fre_squ := fre_squ st;
     fre_saw := fre_saw st; fre_tra := fre_tra st;
     amp_sin := scanned amp (FofZ 1); amp_squ := amp_squ st;
     amp_saw := amp_saw st; amp_tra := amp_tra st;
     phase_sin := phase;
     duty_cycle := duty_cycle st; slope := slope st |}.

Definition square (st : config F) (fre amp duty : option F) : config F :=
  let duty_cycle' := scanned duty Fhalf in
  let duty_cycle' := if Fltb duty_cycle' (FofZ 0) then FofZ 0 else duty_cycle' in
  let duty_cycle' := if Fltb (FofZ 1) duty_cycle' then FofZ 1 else duty_cycle' in
  {| fre_sin := fre_sin st; fre_squ := scanned fre (FofZ 1);
     fre_saw := fre_saw st; fre_tra := fre_tra st;
     amp_sin := amp_sin st; amp_squ := scanned amp (FofZ 1);
     amp_saw := amp_saw st; amp_tra := amp_tra st;
     phase_sin := phase_sin st;
     duty_cycle := duty_cycle'; slope := slope st |}.

Definition triangle (st : config F) (fre amp : option F) : config F :=
  {| fre_sin := fre_sin st; fre_squ := fre_squ st;
     fre_saw := fre_saw st; fre_tra := scanned fre (FofZ 1);
     amp_sin := amp_sin st; amp_squ := amp_squ st;
     amp_saw := amp_saw st; amp_tra := scanned amp (FofZ 1);
     phase_sin := phase_sin st;
     duty_cycle := duty_cycle st; slope := slope st |}.

Definition sawtooth (st : config F) (amp slope' : option F) : config F :=
  {| fre_sin := fre_sin st; fre_squ := fre_squ st;
     fre_saw := fre_saw st; fre_tra := fre_tra st;
     amp_sin := amp_sin st; amp_squ := amp_squ st;
     amp_saw := scanned amp (FofZ 1); amp_tra := amp_tra st;
     phase_sin := phase_sin st;
     duty_cycle := duty_cycle st; slope := scanned slope' (FofZ 1) |}.

(** What the user enters for one trip through the main menu: the item
    chosen and the answers to its handler's prompts. *)
Inductive request : Type :=
  | ask_sine (fre amp : option F) (line : option string)
  | ask_square (fre amp duty : option F)
  | ask_triangle (fre amp : option F)
  | ask_sawtooth (amp slope' : option F).

Definition configure (st : config F) (rq : request) : config F :=
  match rq with
  | ask_sine fre amp line => sine st fre amp line
  | ask_square fre amp duty => square st fre amp duty
  | ask_triangle fre amp => triangle st fre amp
  | ask_sawtooth amp slope' => sawtooth st amp slope'
  end.

(** The static variables after a run of requests, from the start-up
    values on; nothing else in the program assigns them. *)
Definition session (requests : list request) : config F :=
  fold_left configure requests initial_config.

End PhaseInput.

Arguments request F : clear implicits.

(** What every display that is produced looks like: 8 table rows, 100 plot
    values, 21 printed lines of 100 characters. *)
Definition well_formed_display (F : Type) (d : display F) : Prop :=
  List.length (table d) = 8%nat /\
  List.length (yval d) = 100%nat /\
  exists lines,
    plot d = Printed lines /\
    List.length lines = 21%nat /\
    Forall (fun line => String.length line = 100%nat) lines.

(** A stand-in for the C library's conversion in the runs below: it reads
    texts made of decimal digits only. *)
Definition digits_only_scanner (text : string) : option R :=
  match text with
  | EmptyString => None
  | _ => if all_digits text then Some (IZR (digits_value 0 text)) else None
  end.

(** More configurations for the runs below. *)
Definition with_duty (F : Type) (st : config F) (duty : F) : config F :=
  {| fre_sin := fre_sin st; fre_squ := fre_squ st; fre_saw := fre_saw st;
     fre_tra := fre_tra st;
     amp_sin := amp_sin st; amp_squ := amp_squ st; amp_saw := amp_saw st;
     amp_tra := amp_tra st;
     phase_sin := phase_sin st;
     duty_cycle := duty; slope := slope st |}.

Definition sine_amplitude_zero : config R :=
  with_sine initial_config 1%R 0%R 0%R.

(** ** Binary32 runs

    The square and the triangle call no [sinf]; where a run needs the
    interpretation as a whole, [sinf] is this stand-in. *)
(** The binary32 arithmetic for the runs that are evaluated.  The square,
    the triangle, the sawtooth, the normalization and the sample times
    never call [sinf], so those runs are the same whatever [sinf] is
    ([binary32_runs_any_sinf]); the identity stands in its place. *)
Definition sinf_stand_in : B32.float32 -> B32.float32 := fun x => x.

Definition binary32 : FloatOps B32.float32 := B32.ops sinf_stand_in.

(** The floats [0.1f], [3e38f] and [1e-39f], and pi/2 as [PI / 2] gives
    it. *)
Definition tenth : B32.float32 := B32.mk 13421773 (-27).
Definition three_e38 : B32.float32 := B32.mk 14791142 104.
Definition one_e_minus_39 : B32.float32 := B32.mk 713624 (-149).
Definition half_pi : B32.float32 := B32.mk 13176795 (-23).




(** The start-up configuration with the square at frequency [f], and with
    the triangle at amplitude [0.1f], in binary32. *)
Definition square_at (f : B32.float32) : config B32.float32 :=
  with_frequencies (initial_config (ops := binary32)) f (B32.of_Z 1) (B32.of_Z 1).

Definition triangle_tenth : config B32.float32 :=
  triangle (ops := binary32) (initial_config (ops := binary32))
    (Some (B32.of_Z 1)) (Some tenth).

(** Reading the interface's operations as the real ones. *)
Ltac exact_ops :=
  cbn [FofZ Fhalf FPI Fadd Fsub Fmul Fdiv Fopp Fabs Fltb Fleb Feqb Fsin Ffmod
       Ftrunc Exact.ops] in *.

Unset Implicit Arguments.

(** * Properties *)

(** ** The sampler's dispatch and guards, under any float arithmetic *)

Section AnyArithmetic.

Context {F : Type} {ops : FloatOps F}.
Local Open Scope cfloat_scope.

Lemma default_branch (st : config F) (waveform_type : Z) (t : F) :
  waveform_type <> 1%Z -> waveform_type <> 2%Z ->
  waveform_type <> 3%Z -> waveform_type <> 4%Z ->
  sample_base_waveform st waveform_type t = #0.
Proof.
  intros H1 H2 H3 H4; unfold sample_base_waveform.
  destruct waveform_type as [ | [ [ [] | [] | ] | [ [] | [] | ] | ] | ];
    try reflexivity; congruence.
Qed.

(** C10.  A [waveform_type] other than 1, 2, 3 and 4 takes the [default]
    branch of the [switch]: the sample is [0.0f] at every time. *)
Theorem sample_unknown_kind_is_zero :
  forall (st : config F) (waveform_type : Z) (t : F),
    ~ In waveform_type [1; 2; 3; 4]%Z ->
    sample_base_waveform st waveform_type t = #0.
Proof.
  intros st wt t Hout.
  apply default_branch; intros ->; apply Hout; simpl; tauto.
Qed.

(** C1, as the code has it.  Square, triangle and sawtooth return [0.0f]
    at every time once their frequency compares [<= 0.0f]; the sine has no
    such guard and is [amp * sinf (2 * PI * f * t + phase)] for every
    frequency. *)
Theorem sample_guarded_kinds_zero_frequency :
  forall (st : config F) (t : F),
    ((fre_squ st <=? #0) = true -> sample_base_waveform st 2 t = #0) /\
    ((fre_tra st <=? #0) = true -> sample_base_waveform st 3 t = #0) /\
    ((fre_saw st <=? #0) = true -> sample_base_waveform st 4 t = #0) /\
    sample_base_waveform st 1 t =
      amp_sin st * Fsin (#2 * FPI * fre_sin st * t + phase_sin st).
Proof.
  intros st t; unfold sample_base_waveform.
  repeat split; intros ->; reflexivity.
Qed.

End AnyArithmetic.

(** ** Exact arithmetic: truncation and [fmod] *)

Section ExactToolkit.

Local Open Scope R_scope.

Lemma trunc_nonneg_floor (x : R) (z : Z) :
  IZR z <= x < IZR z + 1 -> 0 <= x -> Exact.trunc x = z.
Proof.
  intros [Hlo Hhi] Hx; unfold Exact.trunc.
  destruct (Rle_dec 0 x) as [_ | Hn]; [ | contradiction ].
  symmetry; apply Int_part_spec; lra.
Qed.

Lemma trunc_floor_bounds (x : R) :
  0 <= x -> IZR (Exact.trunc x) <= x < IZR (Exact.trunc x) + 1.
Proof.
  intros Hx; unfold Exact.trunc.
  destruct (Rle_dec 0 x) as [_ | Hn]; [ | contradiction ].
  destruct (base_Int_part x); lra.
Qed.

Lemma fmod_below_period (t T : R) :
  0 <= t < T -> Exact.fmod t T = t.
Proof.
  intros [Ht HtT]; unfold Exact.fmod.
  assert (HT : 0 < T) by lra.
  assert (Hq : 0 <= t / T < 1).
  { split.
    - apply Rmult_le_pos; [ lra | left; apply Rinv_0_lt_compat; lra ].
    - apply (Rmult_lt_reg_r T); [ lra | ].
      unfold Rdiv; rewrite Rmult_assoc, Rinv_l by lra; lra. }
  rewrite (trunc_nonneg_floor (t / T) 0%Z); simpl; lra.
Qed.

Lemma fmod_range (t T : R) :
  0 <= t -> 0 < T -> 0 <= Exact.fmod t T < T.
Proof.
  intros Ht HT; unfold Exact.fmod.
  assert (Hq : 0 <= t / T)
    by (apply Rmult_le_pos; [ lra | left; apply Rinv_0_lt_compat; lra ]).
  destruct (trunc_floor_bounds _ Hq) as [Hlo Hhi].
  set (n := IZR (Exact.trunc (t / T))) in *.
  assert (Ht' : t = t / T * T) by (field; lra).
  split.
  - assert (n * T <= t / T * T) by (apply Rmult_le_compat_r; lra). lra.
  - assert (t / T * T < (n + 1) * T) by (apply Rmult_lt_compat_r; lra). lra.
Qed.

Lemma pos_in_unit_interval (t T : R) :
  0 <= t -> 0 < T -> 0 <= Exact.fmod t T / T < 1.
Proof.
  intros Ht HT; destruct (fmod_range _ _ Ht HT) as [Hlo Hhi].
  split.
  - apply Rmult_le_pos; [ lra | left; apply Rinv_0_lt_compat; lra ].
  - apply (Rmult_lt_reg_r T); [ lra | ].
    unfold Rdiv; rewrite Rmult_assoc, Rinv_l by lra; lra.
Qed.

Lemma ltb_true (x y : R) : x < y -> Exact.ltb x y = true.
Proof. intros H; unfold Exact.ltb; destruct (Rlt_dec x y); [ reflexivity | contradiction ]. Qed.

Lemma ltb_false (x y : R) : y <= x -> Exact.ltb x y = false.
Proof. intros H; unfold Exact.ltb; destruct (Rlt_dec x y); [ lra | reflexivity ]. Qed.

Lemma leb_true (x y : R) : x <= y -> Exact.leb x y = true.
Proof. intros H; unfold Exact.leb; destruct (Rle_dec x y); [ reflexivity | contradiction ]. Qed.

Lemma leb_false (x y : R) : y < x -> Exact.leb x y = false.
Proof. intros H; unfold Exact.leb; destruct (Rle_dec x y); [ lra | reflexivity ]. Qed.

Lemma eqb_true (x : R) : Exact.eqb x x = true.
Proof. unfold Exact.eqb; destruct (Req_dec_T x x); [ reflexivity | contradiction ]. Qed.

Lemma eqb_false (x y : R) : x <> y -> Exact.eqb x y = false.
Proof. intros H; unfold Exact.eqb; destruct (Req_dec_T x y); [ contradiction | reflexivity ]. Qed.

End ExactToolkit.

(** ** Frequency guard of the sine branch *)

Section SineGuard.

Local Open Scope R_scope.

(** C1 as stated fails for the sine: that branch has no frequency guard.
    With frequency 0, amplitude 1 and phase pi/2 the sample at [t = 0] is
    1, not 0. *)
Lemma sine_zero_frequency_sample_nonzero :
  fre_sin sine_frequency_zero <= 0 /\
  sample_base_waveform sine_frequency_zero 1 0 = 1 /\
  sample_base_waveform sine_frequency_zero 1 0 <> 0.
Proof.
  cbn.
  assert (E : 1 * sin (2 * PI * 0 * 0 + PI / 2) = 1).
  { replace (2 * PI * 0 * 0 + PI / 2) with (PI / 2) by ring.
    rewrite sin_PI2; ring. }
  rewrite E; repeat split; lra.
Qed.

(** A run of the guarded kinds at frequency 0 (square), -1 (triangle) and
    -2 (sawtooth). *)
Lemma sample_guarded_kinds_zero_frequency_run :
  sample_base_waveform frequencies_not_positive 2 3 = 0 /\
  sample_base_waveform frequencies_not_positive 3 3 = 0 /\
  sample_base_waveform frequencies_not_positive 4 3 = 0.
Proof.
  destruct (sample_guarded_kinds_zero_frequency frequencies_not_positive 3)
    as (H2 & H3 & H4 & _).
  repeat split; [ apply H2 | apply H3 | apply H4 ]; apply leb_true; simpl; lra.
Defined.

Lemma sample_unknown_kind_is_zero_run :
  sample_base_waveform (initial_config (F := R)) 7 2 = 0.
Proof.
  refine (sample_unknown_kind_is_zero initial_config 7 2 _);
  simpl; lia.
Defined.

End SineGuard.

(** ** Loops *)

Lemma for_range_ext (A : Type) (n : Z) (f g : Z -> A) :
  (forall i, (0 <= i < n)%Z -> f i = g i) -> for_range n f = for_range n g.
Proof.
  intros H; unfold for_range; apply map_ext_in; intros k Hk.
  apply in_seq in Hk; apply H; lia.
Qed.

Lemma for_range_length (A : Type) (n : Z) (f : Z -> A) :
  List.length (for_range n f) = Z.to_nat n.
Proof. unfold for_range; rewrite length_map, length_seq; reflexivity. Qed.

Lemma for_range_nth (A : Type) (n : Z) (f : Z -> A) (d : A) (i : Z) :
  (0 <= i < n)%Z -> nth (Z.to_nat i) (for_range n f) d = f i.
Proof.
  intros Hi; unfold for_range.
  rewrite (nth_indep _ d (f (Z.of_nat 0)))
    by (rewrite length_map, length_seq; lia).
  rewrite (map_nth (fun k => f (Z.of_nat k))), seq_nth by lia.
  simpl; rewrite Z2Nat.id by lia; reflexivity.
Qed.

(** ** The sine display: phase in the table, time shift in the plot *)

Section SineDisplay.

Local Open Scope R_scope.

(** In exact arithmetic, for [f > 0]: the eight table rows are taken at
    [t_i = i*(1/f)/8] with the phase inside the angle, the hundred plot
    values are a phase-free sine evaluated at
    [i*(1/f)/100 + phase/(2*pi*f)]; for phase pi/2 and [f = 1] the first
    table row is [(0, amp * sin (pi/2))] with [sin (pi/2) = 1], and the
    first plot value is the same number. *)
Lemma sine_display_exact :
  forall st : config R,
    0 < fre_sin st ->
    exists d : display R,
      sine_plot st = Some d /\
      table d =
        for_range 8 (fun i =>
          let t := IZR i * (1 / fre_sin st) / 8 in
          (t, amp_sin st * sin (2 * PI * fre_sin st * t + phase_sin st))) /\
      yval d =
        for_range 100 (fun i =>
          amp_sin st *
          sin (2 * PI * fre_sin st *
               (IZR i * (1 / fre_sin st) / 100
                + phase_sin st / (2 * PI * fre_sin st)))) /\
      (phase_sin st = PI / 2 -> fre_sin st = 1 ->
       sin (PI / 2) = 1 /\
       nth 0 (table d) (0, 0) = (0, amp_sin st * sin (PI / 2)) /\
       nth 0 (yval d) 0 = amp_sin st * sin (PI / 2)).
Proof.
  intros st Hf.
  unfold sine_plot; exact_ops.
  rewrite (leb_false _ _ Hf), (eqb_false (fre_sin st) 0) by lra.
  eexists; split; [ reflexivity | ].
  cbn [table yval negb].
  assert (Htable :
    for_range TABLE_SAMPLES (fun i =>
      (IZR i * (1 / fre_sin st / IZR TABLE_SAMPLES),
       amp_sin st *
       sin (2 * PI * fre_sin st * (IZR i * (1 / fre_sin st / IZR TABLE_SAMPLES))
            + phase_sin st))) =
    for_range 8 (fun i =>
      let t := IZR i * (1 / fre_sin st) / 8 in
      (t, amp_sin st * sin (2 * PI * fre_sin st * t + phase_sin st)))).
  { apply for_range_ext; intros i _; cbv zeta; unfold TABLE_SAMPLES.
    replace (IZR i * (1 / fre_sin st / 8)) with (IZR i * (1 / fre_sin st) / 8)
      by (unfold Rdiv; ring).
    reflexivity. }
  assert (Hplot :
    for_range DEFAULT_SAMPLES (fun i =>
      amp_sin st *
      sin (2 * PI * fre_sin st *
           (IZR i * (1 / fre_sin st / IZR DEFAULT_SAMPLES)
            + phase_sin st / (2 * PI * fre_sin st)))) =
    for_range 100 (fun i =>
      amp_sin st *
      sin (2 * PI * fre_sin st *
           (IZR i * (1 / fre_sin st) / 100
            + phase_sin st / (2 * PI * fre_sin st))))).
  { apply for_range_ext; intros i _; unfold DEFAULT_SAMPLES.
    replace (IZR i * (1 / fre_sin st / 100)) with (IZR i * (1 / fre_sin st) / 100)
      by (unfold Rdiv; ring).
    reflexivity. }
  rewrite Htable, Hplot.
  split; [ reflexivity | split; [ reflexivity | ] ].
  intros Hphase Hone.
  split; [ exact sin_PI2 | ].
  change 0%nat with (Z.to_nat 0).
  rewrite !for_range_nth by lia.
  cbv zeta; rewrite Hphase, Hone.
  split.
  - f_equal; [ unfold Rdiv; ring | ].
    do 2 f_equal; unfold Rdiv; ring.
  - do 2 f_equal; field; apply PI_neq0.
Qed.

End SineDisplay.

(** ** The renderer's rows *)

Section RendererRows.

Local Open Scope R_scope.

Lemma trunc_half_integer (n : Z) :
  (0 <= n)%Z -> Exact.trunc (/ 2 * IZR n + / 2) = ((n + 1) / 2)%Z.
Proof.
  intros Hn.
  pose proof (Z.div_mod (n + 1) 2 ltac:(lia)) as Hdm.
  pose proof (Z.mod_pos_bound (n + 1) 2 ltac:(lia)) as Hmod.
  set (q := ((n + 1) / 2)%Z) in *.
  assert (Hlo : (2 * q <= n + 1)%Z) by lia.
  assert (Hhi : (n + 1 < 2 * q + 2)%Z) by lia.
  apply IZR_le in Hlo; apply IZR_lt in Hhi.
  rewrite plus_IZR, mult_IZR in Hlo; rewrite !plus_IZR, mult_IZR in Hhi.
  assert (H0 : (0 <= n)%Z) by exact Hn; apply IZR_le in H0.
  apply trunc_nonneg_floor; lra.
Qed.

(** With a nonzero amplitude the axis is the row [rows / 2] whatever the
    amplitude: [(amp - 0) / (2 * amp)] is one half. *)
Lemma mid_row_nonzero_amp (rows : Z) (amp : R) :
  (0 < rows)%Z -> amp <> 0 -> mid_row rows amp = (rows / 2)%Z.
Proof.
  intros Hrows Hamp; unfold mid_row; exact_ops.
  rewrite (eqb_false amp 0 Hamp).
  replace ((amp - 0) / (2 * amp)) with (/ 2) by (field; exact Hamp).
  rewrite trunc_half_integer by lia.
  replace (rows - 1 + 1)%Z with rows by lia.
  assert (0 <= rows / 2 < rows)%Z
    by (split; [ apply Z.div_pos; lia | apply Z.div_lt_upper_bound; lia ]).
  destruct (Z.ltb_spec (rows / 2) 0); [ lia | ].
  destruct (Z.geb_spec (rows / 2) rows); [ lia | reflexivity ].
Qed.

(** With amplitude 0 every value is drawn on the row [rows / 2]. *)
Lemma value_row_zero_amp (rows : Z) (y : R) :
  (0 < rows)%Z -> value_row rows 0 y = (rows / 2)%Z.
Proof.
  intros Hrows; unfold value_row; exact_ops.
  rewrite (eqb_true 0); cbn [negb].
  rewrite (ltb_false (/ 2) 0), (ltb_false 1 (/ 2)) by lra.
  rewrite trunc_half_integer by lia.
  replace (rows - 1 + 1)%Z with rows by lia.
  assert (0 <= rows / 2 < rows)%Z
    by (split; [ apply Z.div_pos; lia | apply Z.div_lt_upper_bound; lia ]).
  destruct (Z.ltb_spec (rows / 2) 0); [ lia | ].
  destruct (Z.geb_spec (rows / 2) rows); [ lia | reflexivity ].
Qed.

(** With amplitude 0 the axis is the top row: the quotient is
    [(0 - 0) / (2 * 1) = 0], not one half. *)
Lemma mid_row_zero_amp (rows : Z) :
  (0 < rows)%Z -> mid_row rows (0 : R) = 0%Z.
Proof.
  intros Hrows; unfold mid_row; exact_ops.
  rewrite (eqb_true 0).
  replace ((0 - 0) / (2 * 1) * IZR (rows - 1) + / 2) with (/ 2)
    by (unfold Rdiv; ring).
  rewrite (trunc_nonneg_floor (/ 2) 0) by (simpl; lra).
  change (0 <? 0)%Z with false; cbv iota.
  destruct (Z.geb_spec 0 rows); [ lia | reflexivity ].
Qed.

(** C3, at amplitude 0 and 21 rows: the values go to row 10 and the axis
    to row 0, in exact arithmetic and in binary32 alike, so the trace and
    the axis line are on different rows. *)
Theorem axis_row_at_zero_amplitude :
  (forall y : R, value_row 21 0 y = 10%Z) /\
  mid_row 21 (0 : R) = 0%Z /\
  (forall sinf y,
     value_row (ops := B32.ops sinf) 21 (B32.of_Z 0) y = 10%Z) /\
  (forall sinf, mid_row (ops := B32.ops sinf) 21 (B32.of_Z 0) = 0%Z).
Proof.
  split; [ | split; [ | split ] ].
  - intros y; rewrite value_row_zero_amp by lia; reflexivity.
  - apply mid_row_zero_amp; lia.
  - intros sinf y; vm_compute; reflexivity.
  - intros sinf; vm_compute; reflexivity.
Qed.

(** The picture for three values at amplitude 0 on five rows: axis on the
    top line, trace on the middle one. *)
Lemma zero_amplitude_picture :
  forall sinf,
    print_ascii_from_yvals (ops := B32.ops sinf)
      (Some [B32.of_Z 0; B32.of_Z 1; B32.of_Z (-1)]) 3 5 (B32.of_Z 0)
    = Printed ["---"; "   "; "***"; "   "; "   "]%string.
Proof. intros sinf; vm_compute; reflexivity. Qed.

(** In binary32 the axis of a 21-row plot is row 10 for the amplitudes
    1, -1, 9.25 and the smallest positive float. *)
Lemma mid_row_binary32_runs :
  forall sinf,
    map (mid_row (ops := B32.ops sinf) 21)
        [B32.of_Z 1; B32.of_Z (-1); B32.mk 37 (-2); B32.mk 1 (-149)]
    = [10; 10; 10; 10]%Z.
Proof. intros sinf; vm_compute; reflexivity. Qed.

End RendererRows.

(** ** The square wave's table *)

Section SquareTable.

Local Open Scope R_scope.



(** The same table computed in binary32 at the start-up configuration
    (frequency 1, amplitude 1, duty cycle 0.5). *)
Lemma square_table_binary32_run :
  forall sinf,
    option_map (fun d => map snd (table d))
      (square_plot (ops := B32.ops sinf) (initial_config (ops := B32.ops sinf)))
    = Some (map B32.of_Z [1; 1; 1; 1; -1; -1; -1; -1]%Z).
Proof. intros sinf; vm_compute; reflexivity. Qed.

End SquareTable.

(** ** The triangle wave *)

Section Triangle.

Local Open Scope R_scope.

Lemma triangle_sample_by_position (st : config R) (t : R) :
  0 < fre_tra st ->
  sample_base_waveform st 3 t =
  if Rlt_dec (Spec.position (fre_tra st) t) (/ 2)
  then - amp_tra st + 4 * amp_tra st * Spec.position (fre_tra st) t
  else 3 * amp_tra st - 4 * amp_tra st * Spec.position (fre_tra st) t.
Proof.
  intros Hf; unfold sample_base_waveform, Spec.position; exact_ops.
  rewrite (leb_false _ _ Hf); unfold Exact.ltb.
  destruct (Rlt_dec _ _); reflexivity.
Qed.

Lemma scaled_distance_small (a x eps : R) :
  0 < eps -> Rabs x < eps / (4 * Rabs a + 1) -> Rabs (4 * a * x) < eps.
Proof.
  intros Heps Hx.
  pose proof (Rabs_pos a) as Ha.
  assert (Hk : 0 < 4 * Rabs a + 1) by lra.
  rewrite !Rabs_mult, (Rabs_right 4) by lra.
  assert (Hd : eps / (4 * Rabs a + 1) * (4 * Rabs a + 1) = eps) by (field; lra).
  pose proof (Rabs_pos x) as Hx0.
  nra.
Qed.

(** In exact arithmetic, for [f > 0], with [pos = (t mod T) / T]: the
    sample is
    [-amp + 4*amp*pos] while [pos < 0.5] and [3*amp - 4*amp*pos] from
    [pos = 0.5] on; it is [-amp] at [pos = 0] (reached at [t = 0]) and
    [+amp] at [pos = 0.5] (reached at [t = T/2]); it tends to [-amp] as
    [pos] tends to 1 from below, and to its own value as [pos] tends to 0
    or to 0.5. *)
Lemma triangle_exact :
  forall st : config R,
    0 < fre_tra st ->
    let amp := amp_tra st in
    let pos := Spec.position (fre_tra st) in
    let sample := sample_base_waveform st 3 in
    (forall t, pos t < / 2 -> sample t = - amp + 4 * amp * pos t) /\
    (forall t, / 2 <= pos t -> sample t = 3 * amp - 4 * amp * pos t) /\
    (forall t, pos t = 0 -> sample t = - amp) /\
    (forall t, pos t = / 2 -> sample t = amp) /\
    (pos 0 = 0 /\ sample 0 = - amp) /\
    (pos (1 / fre_tra st / 2) = / 2 /\ sample (1 / fre_tra st / 2) = amp) /\
    (forall eps, 0 < eps -> exists delta, 0 < delta /\
       forall t, 1 - delta < pos t < 1 -> Rabs (sample t - (- amp)) < eps) /\
    (forall eps, 0 < eps -> exists delta, 0 < delta /\
       forall t, Rabs (pos t - 0) < delta -> Rabs (sample t - (- amp)) < eps) /\
    (forall eps, 0 < eps -> exists delta, 0 < delta /\
       forall t, Rabs (pos t - / 2) < delta -> Rabs (sample t - amp) < eps).
Proof.
  intros st Hf amp pos sample.
  assert (HT : 0 < 1 / fre_tra st) by (apply Rdiv_lt_0_compat; lra).
  assert (Hrise : forall t, pos t < / 2 -> sample t = - amp + 4 * amp * pos t).
  { intros t Hp; unfold sample; rewrite (triangle_sample_by_position st t Hf).
    fold pos amp; destruct (Rlt_dec (pos t) (/ 2)); [ reflexivity | contradiction ]. }
  assert (Hfall : forall t, / 2 <= pos t -> sample t = 3 * amp - 4 * amp * pos t).
  { intros t Hp; unfold sample; rewrite (triangle_sample_by_position st t Hf).
    fold pos amp; destruct (Rlt_dec (pos t) (/ 2)); [ lra | reflexivity ]. }
  assert (Hzero : forall t, pos t = 0 -> sample t = - amp).
  { intros t Hp; rewrite Hrise by lra; rewrite Hp; ring. }
  assert (Hhalf : forall t, pos t = / 2 -> sample t = amp).
  { intros t Hp; rewrite Hfall by lra; rewrite Hp; field. }
  assert (Hp0 : pos 0 = 0).
  { unfold pos, Spec.position; rewrite fmod_below_period by lra; field; lra. }
  assert (Hp2 : pos (1 / fre_tra st / 2) = / 2).
  { unfold pos, Spec.position; rewrite fmod_below_period by lra; field; lra. }
  assert (Hk : 0 < 4 * Rabs amp + 1) by (pose proof (Rabs_pos amp); lra).
  repeat split; auto.
  - (* pos -> 1- *)
    intros eps Heps.
    exists (Rmin (/ 2) (eps / (4 * Rabs amp + 1))); split.
    { apply Rmin_glb_lt; [ lra | apply Rdiv_lt_0_compat; lra ]. }
    intros t [Hlo Hhi].
    pose proof (Rmin_l (/ 2) (eps / (4 * Rabs amp + 1))) as Hm1.
    pose proof (Rmin_r (/ 2) (eps / (4 * Rabs amp + 1))) as Hm2.
    rewrite Hfall by lra.
    replace (3 * amp - 4 * amp * pos t - - amp) with (4 * amp * (1 - pos t)) by ring.
    apply scaled_distance_small; [ exact Heps | ].
    rewrite Rabs_right by lra; lra.
  - (* pos -> 0 *)
    intros eps Heps.
    exists (Rmin (/ 2) (eps / (4 * Rabs amp + 1))); split.
    { apply Rmin_glb_lt; [ lra | apply Rdiv_lt_0_compat; lra ]. }
    intros t Hd.
    pose proof (Rmin_l (/ 2) (eps / (4 * Rabs amp + 1))) as Hm1.
    pose proof (Rmin_r (/ 2) (eps / (4 * Rabs amp + 1))) as Hm2.
    rewrite Rminus_0_r in Hd.
    assert (Hlt : pos t < / 2) by (pose proof (Rle_abs (pos t)); lra).
    rewrite Hrise by exact Hlt.
    replace (- amp + 4 * amp * pos t - - amp) with (4 * amp * pos t) by ring.
    apply scaled_distance_small; [ exact Heps | lra ].
  - (* pos -> 0.5 *)
    intros eps Heps.
    exists (eps / (4 * Rabs amp + 1)); split.
    { apply Rdiv_lt_0_compat; lra. }
    intros t Hd.
    destruct (Rlt_dec (pos t) (/ 2)) as [Hlt | Hge].
    + rewrite Hrise by exact Hlt.
      replace (- amp + 4 * amp * pos t - amp) with (4 * amp * (pos t - / 2)) by field.
      apply scaled_distance_small; assumption.
    + rewrite Hfall by lra.
      replace (3 * amp - 4 * amp * pos t - amp) with (4 * amp * - (pos t - / 2)) by field.
      apply scaled_distance_small; [ exact Heps | rewrite Rabs_Ropp; exact Hd ].
Qed.

(** The triangle table in binary32 at the start-up configuration:
    -1, -0.5, 0, 0.5, 1, 0.5, 0, -0.5. *)
Lemma triangle_table_binary32_run :
  forall sinf,
    option_map (fun d => map snd (table d))
      (triangle_plot (ops := B32.ops sinf) (initial_config (ops := B32.ops sinf)))
    = Some [B32.of_Z (-1); B32.mk (-1) (-1); B32.of_Z 0; B32.mk 1 (-1);
            B32.of_Z 1; B32.mk 1 (-1); B32.of_Z 0; B32.mk (-1) (-1)].
Proof. intros sinf; vm_compute; reflexivity. Qed.

End Triangle.

(** ** Modulation: the normalized base value *)

Section Normalization.

Local Open Scope R_scope.

Lemma carrier_period_pos (fc : R) : 0 < carrier_period fc.
Proof.
  unfold carrier_period; exact_ops; unfold Exact.ltb.
  destruct (Rlt_dec 0 fc); [ apply Rdiv_lt_0_compat; lra | lra ].
Qed.

(** The times [i * step] of the sample loops are not negative. *)
Lemma sample_time_nonneg (fc : R) (N i : Z) :
  (0 < N)%Z -> (0 <= i)%Z -> 0 <= IZR i * (carrier_period fc / IZR N).
Proof.
  intros HN Hi; apply IZR_lt in HN; apply IZR_le in Hi.
  pose proof (carrier_period_pos fc).
  apply Rmult_le_pos; [ lra | ].
  left; apply Rdiv_lt_0_compat; lra.
Qed.

(** The guard of the division, under any arithmetic: with a base
    amplitude that compares equal to zero no division is evaluated and
    [xnorm] is the literal [0.0f]. *)
Lemma xnorm_zero_amplitude {F : Type} {ops : FloatOps F}
    (st : config F) (waveform_type : Z) (t : F) :
  Feqb (amp_base_of st waveform_type) (FofZ 0) = true ->
  xnorm_at st waveform_type t = FofZ 0.
Proof. intros H; unfold xnorm_at; rewrite H; reflexivity. Qed.

Lemma xnorm_is_quotient (st : config R) (waveform_type : Z) (t : R) :
  amp_base_of st waveform_type <> 0 ->
  xnorm_at st waveform_type t =
  sample_base_waveform st waveform_type t / amp_base_of st waveform_type.
Proof.
  intros HA; unfold xnorm_at; exact_ops.
  rewrite (eqb_false _ _ HA); reflexivity.
Qed.

Lemma sine_quotient_bounded (st : config R) (t : R) :
  amp_sin st <> 0 -> -1 <= sample_base_waveform st 1 t / amp_sin st <= 1.
Proof.
  intros HA; unfold sample_base_waveform; exact_ops.
  replace (amp_sin st * sin (2 * PI * fre_sin st * t + phase_sin st) / amp_sin st)
    with (sin (2 * PI * fre_sin st * t + phase_sin st)) by (field; exact HA).
  apply SIN_bound.
Qed.

Lemma square_quotient_bounded (st : config R) (t : R) :
  amp_squ st <> 0 -> -1 <= sample_base_waveform st 2 t / amp_squ st <= 1.
Proof.
  intros HA; unfold sample_base_waveform; exact_ops.
  destruct (Exact.leb (fre_squ st) 0).
  - unfold Rdiv; rewrite Rmult_0_l; lra.
  - destruct (Exact.ltb _ _).
    + replace (amp_squ st / amp_squ st) with 1 by (field; exact HA); lra.
    + replace (- amp_squ st / amp_squ st) with (-1) by (field; exact HA); lra.
Qed.

Lemma triangle_quotient_bounded (st : config R) (t : R) :
  0 <= t -> amp_tra st <> 0 ->
  -1 <= sample_base_waveform st 3 t / amp_tra st <= 1.
Proof.
  intros Ht HA; unfold sample_base_waveform; exact_ops.
  unfold Exact.leb; destruct (Rle_dec (fre_tra st) 0) as [Hle | Hgt].
  - unfold Rdiv; rewrite Rmult_0_l; lra.
  - assert (HT : 0 < 1 / fre_tra st) by (apply Rdiv_lt_0_compat; lra).
    destruct (pos_in_unit_interval t _ Ht HT) as [Hlo Hhi].
    set (pos := Exact.fmod t (1 / fre_tra st) / (1 / fre_tra st)) in *.
    unfold Exact.ltb; destruct (Rlt_dec pos (/ 2)) as [Hlt | Hge].
    + replace ((- amp_tra st + 4 * amp_tra st * pos) / amp_tra st)
        with (-1 + 4 * pos) by (field; exact HA).
      lra.
    + replace ((3 * amp_tra st - 4 * amp_tra st * pos) / amp_tra st)
        with (3 - 4 * pos) by (field; exact HA).
      lra.
Qed.

Lemma sawtooth_quotient_bounded (st : config R) (t : R) :
  0 <= t -> amp_saw st <> 0 ->
  -1 <= sample_base_waveform st 4 t / amp_saw st <= 1.
Proof.
  intros Ht HA; unfold sample_base_waveform; exact_ops.
  unfold Exact.leb; destruct (Rle_dec (fre_saw st) 0) as [Hle | Hgt].
  - unfold Rdiv; rewrite Rmult_0_l; lra.
  - assert (HT : 0 < 1 / fre_saw st) by (apply Rdiv_lt_0_compat; lra).
    destruct (pos_in_unit_interval t _ Ht HT) as [Hlo Hhi].
    set (frac := Exact.fmod t (1 / fre_saw st) / (1 / fre_saw st)) in *.
    replace ((- amp_saw st + 2 * amp_saw st * frac) / amp_saw st)
      with (-1 + 2 * frac) by (field; exact HA).
    lra.
Qed.

Lemma base_quotient_bounded (st : config R) (waveform_type : Z) (t : R) :
  0 <= t -> amp_base_of st waveform_type <> 0 ->
  -1 <= sample_base_waveform st waveform_type t / amp_base_of st waveform_type <= 1.
Proof.
  intros Ht HA.
  destruct (Z.eq_dec waveform_type 1) as [-> | H1];
    [ apply sine_quotient_bounded; exact HA | ].
  destruct (Z.eq_dec waveform_type 2) as [-> | H2];
    [ apply square_quotient_bounded; exact HA | ].
  destruct (Z.eq_dec waveform_type 3) as [-> | H3];
    [ apply triangle_quotient_bounded; assumption | ].
  destruct (Z.eq_dec waveform_type 4) as [-> | H4];
    [ apply sawtooth_quotient_bounded; assumption | ].
  rewrite default_branch by assumption.
  exact_ops; unfold Rdiv; rewrite Rmult_0_l; lra.
Qed.


(** The three routines read [xnorm] at those times and nowhere else. *)
Lemma modulation_loops_use_xnorm (st : config R) (waveform_type : Z)
    (Ac fc m : R) :
  table (run_AM st waveform_type Ac fc m) =
    for_range 8 (fun i =>
      let t := IZR i * (carrier_period fc / 8) in
      (t, Ac * (1 + m * xnorm_at st waveform_type t) * sin (2 * PI * fc * t))) /\
  table (run_FM st waveform_type Ac fc m) =
    for_range 8 (fun i =>
      let t := IZR i * (carrier_period fc / 8) in
      (t, Ac * sin (2 * PI * fc * t + m * xnorm_at st waveform_type t))) /\
  table (run_PWM st waveform_type fc Ac) =
    for_range 8 (fun i =>
      let t := IZR i * (carrier_period fc / 8) in
      (t, if Exact.ltb
               (-1 + 2 * (Exact.fmod t (carrier_period fc) / carrier_period fc))
               (xnorm_at st waveform_type t)
          then Ac else - Ac)).
Proof. repeat split. Qed.

End Normalization.

(** ** Modulation: FM and PWM against the documentation's formulas *)

Section ModulationFormulas.

Local Open Scope R_scope.








End ModulationFormulas.

(** ** The renderer: what it prints *)

Section RendererOutput.

Context {F : Type} {ops : FloatOps F}.

Lemma update_length (A : Type) (n : nat) (x : A) (l : list A) :
  List.length (update n x l) = List.length l.
Proof.
  revert n; induction l as [ | a l IH ]; intros [ | n ]; simpl; auto.
Qed.

Lemma update_Forall (A : Type) (P : A -> Prop) (n : nat) (x : A) (l : list A) :
  Forall P l -> (n < List.length l -> P x)%nat -> Forall P (update n x l).
Proof.
  revert n; induction l as [ | a l IH ]; intros [ | n ] Hl Hx; simpl; auto.
  - inversion Hl; subst; constructor; [ apply Hx; simpl; lia | assumption ].
  - inversion Hl; subst; constructor; [ assumption | ].
    apply IH; [ assumption | intros; apply Hx; simpl; lia ].
Qed.

Lemma set_cell_shaped (rows cols : nat) (cv : canvas) (row c : Z) (ch : ascii) :
  shaped rows cols cv -> shaped rows cols (set_cell cv row c ch).
Proof.
  intros [Hlen Hall]; unfold set_cell; split.
  - rewrite update_length; exact Hlen.
  - apply update_Forall; [ exact Hall | ].
    intros Hin; rewrite update_length.
    rewrite Forall_forall in Hall; apply Hall, nth_In, Hin.
Qed.

Lemma plot_values_shaped (yvals : list F) (rows : Z) (amp : F)
    (r c : nat) (columns : list Z) :
  (forall k, In k columns -> (0 <= k < Z.of_nat (List.length yvals))%Z) ->
  forall cv, shaped r c cv ->
  exists cv', plot_values yvals rows amp columns cv = Some cv' /\ shaped r c cv'.
Proof.
  induction columns as [ | k columns IH ]; intros Hcols cv Hcv; simpl.
  - exists cv; split; [ reflexivity | exact Hcv ].
  - destruct (nth_error yvals (Z.to_nat k)) as [ y | ] eqn:Hy.
    + apply IH; [ intros; apply Hcols; right; assumption | ].
      apply set_cell_shaped; exact Hcv.
    + apply nth_error_None in Hy.
      specialize (Hcols k (or_introl eq_refl)); lia.
Qed.

Lemma draw_axis_shaped (r c : nat) (mid : Z) (columns : list Z) :
  forall cv, shaped r c cv -> shaped r c (draw_axis mid columns cv).
Proof.
  unfold draw_axis; induction columns as [ | k columns IH ]; intros cv Hcv; simpl.
  - exact Hcv.
  - apply IH; destruct (Ascii.eqb _ _); [ apply set_cell_shaped | ]; exact Hcv.
Qed.

Lemma repeat_shaped (r c : nat) : shaped r c (repeat (repeat blank c) r).
Proof.
  split; [ apply repeat_length | ].
  apply Forall_forall; intros line Hin.
  apply repeat_spec in Hin; subst; apply repeat_length.
Qed.

Lemma string_of_list_ascii_length (l : list ascii) :
  String.length (string_of_list_ascii l) = List.length l.
Proof. induction l; simpl; congruence. Qed.

Lemma columns_of_range (cols k : Z) : In k (columns_of cols) -> (0 <= k < cols)%Z.
Proof.
  unfold columns_of, for_range; rewrite in_map_iff.
  intros (n & <- & Hn); apply in_seq in Hn; lia.
Qed.

(** C9, as the code has it.  Given a buffer of at least [cols] values and
    positive dimensions the renderer prints [rows] lines of [cols]
    characters; given a null buffer or a dimension that is not positive it
    returns at once and prints nothing, neither a grid nor a message. *)
Theorem render_prints_grid_or_nothing :
  forall (yvals : option (list F)) (cols rows : Z) (amp : F),
    (forall yv,
       yvals = Some yv ->
       (0 < cols)%Z -> (0 < rows)%Z -> (cols <= Z.of_nat (List.length yv))%Z ->
       exists lines,
         print_ascii_from_yvals yvals cols rows amp = Printed lines /\
         Z.of_nat (List.length lines) = rows /\
         Forall (fun line => Z.of_nat (String.length line) = cols) lines) /\
    (yvals = None \/ (cols <= 0)%Z \/ (rows <= 0)%Z ->
       print_ascii_from_yvals yvals cols rows amp = Printed []).
Proof.
  intros yvals cols rows amp; split.
  - intros yv -> Hcols Hrows Hlen; unfold print_ascii_from_yvals.
    destruct (Z.leb_spec cols 0); [ lia | ].
    destruct (Z.leb_spec rows 0); [ lia | ]; cbn [orb].
    destruct (plot_values_shaped yv rows amp (Z.to_nat rows) (Z.to_nat cols)
                (columns_of cols)) with (cv := repeat (repeat blank (Z.to_nat cols)) (Z.to_nat rows))
      as (cv' & -> & Hcv').
    { intros k Hk; apply columns_of_range in Hk; lia. }
    { apply repeat_shaped. }
    eexists; split; [ reflexivity | ].
    destruct (draw_axis_shaped (Z.to_nat rows) (Z.to_nat cols)
                (mid_row rows amp) (columns_of cols) cv' Hcv') as [Hl Hall].
    split.
    + rewrite length_map, Hl; lia.
    + apply Forall_map; revert Hall; apply Forall_impl; intros line Hline.
      rewrite string_of_list_ascii_length, Hline; lia.
  - unfold print_ascii_from_yvals.
    intros [-> | [Hc | Hr]]; [ reflexivity | | ];
      destruct yvals as [ yv | ]; try reflexivity.
    + destruct (Z.leb_spec cols 0); [ reflexivity | lia ].
    + destruct (Z.leb_spec rows 0); [ rewrite orb_true_r; reflexivity | lia ].
Qed.

End RendererOutput.

Section RendererRuns.

Local Open Scope R_scope.

(** C9 as stated fails where it asks for an error: with [cols = 0] the
    call prints no line at all, so no message either. *)
Lemma render_malformed_prints_no_message :
  print_ascii_from_yvals (Some [1]) 0 21 1 = Printed [] /\
  ~ (exists message rest,
       print_ascii_from_yvals (Some [1]) 0 21 1 = Printed (message :: rest)).
Proof.
  split; [ reflexivity | ].
  intros (message & rest & H); discriminate H.
Qed.

End RendererRuns.

(** ** Runs at concrete configurations *)

Section Runs.

Local Open Scope R_scope.


(** Three values on a 5 x 3 canvas, and a null buffer. *)
Lemma render_run :
  (exists lines,
     print_ascii_from_yvals (Some [0; 1; -1]) 3 5 1 = Printed lines /\
     Z.of_nat (List.length lines) = 5%Z /\
     Forall (fun line => Z.of_nat (String.length line) = 3%Z) lines) /\
  print_ascii_from_yvals (None : option (list R)) 100 21 1 = Printed [].
Proof.
  destruct (render_prints_grid_or_nothing (Some [0; 1; -1]) 3 5 1) as [Hgrid _].
  destruct (render_prints_grid_or_nothing (None : option (list R)) 100 21 1)
    as [_ Hnone].
  split.
  - apply (Hgrid [0; 1; -1]); [ reflexivity | lia | lia | simpl; lia ].
  - apply Hnone; left; reflexivity.
Defined.

End Runs.

Section Remarks.

Local Open Scope R_scope.

(** The time shift of the sine plot is the phase, moved out of the angle:
    in exact arithmetic the plot values are those of the table's formula. *)
Lemma time_shift_restores_phase (f phase t : R) :
  f <> 0 -> 2 * PI * f * (t + phase / (2 * PI * f)) = 2 * PI * f * t + phase.
Proof. intros Hf; field; split; [ exact Hf | apply PI_neq0 ]. Qed.

Lemma trunc_above_minus_one (x : R) : -1 < x < 0 -> Exact.trunc x = 0%Z.
Proof.
  intros [Hlo Hhi]; unfold Exact.trunc.
  destruct (Rle_dec 0 x) as [Hn | _]; [ lra | ].
  rewrite <- (Int_part_spec (- x) 0); [ reflexivity | simpl; lra ].
Qed.

(** The bound of C5 is a bound over the loops' times.  [fmodf] keeps the
    sign of [t], so at a negative time, which no loop produces, the
    triangle's position is negative and the quotient leaves [-1, 1]:
    at [t = -1/10] it is [-14/10]. *)
Lemma xnorm_at_negative_time :
  xnorm_at initial_config 3 (- (1 / 10)) = - (14 / 10).
Proof.
  unfold xnorm_at, sample_base_waveform, amp_base_of; cbn; exact_ops.
  rewrite (eqb_false 1 0), (leb_false 1 0) by lra; cbn [negb].
  unfold Exact.fmod.
  rewrite (trunc_above_minus_one (- (1 / 10) / (1 / 1))) by lra.
  rewrite (ltb_true _ (/ 2)) by (simpl; lra).
  simpl; field.
Qed.

End Remarks.

(** ** The renderer: every cell of the canvas *)

Section RendererCells.

Context {F : Type} {ops : FloatOps F}.

Lemma value_row_bounds (rows : Z) (amp y : F) :
  (0 < rows)%Z -> (0 <= value_row rows amp y < rows)%Z.
Proof.
  intros Hrows; unfold value_row; cbv zeta.
  match goal with |- context [Ftrunc ?e] => generalize (Ftrunc e) end.
  intros z; destruct (Z.ltb_spec z 0); destruct (Z.geb_spec 0 rows);
    destruct (Z.geb_spec z rows); lia.
Qed.

Lemma mid_row_bounds (rows : Z) (amp : F) :
  (0 < rows)%Z -> (0 <= mid_row rows amp < rows)%Z.
Proof.
  intros Hrows; unfold mid_row; cbv zeta.
  match goal with |- context [Ftrunc ?e] => generalize (Ftrunc e) end.
  intros z; destruct (Z.ltb_spec z 0); destruct (Z.geb_spec 0 rows);
    destruct (Z.geb_spec z rows); lia.
Qed.

(** X2.  Whatever the arithmetic makes of the fraction (a NaN, an
    infinity, a cast gone wrong), the row of a value and the axis row are
    inside the canvas: no write of the renderer leaves it. *)
Theorem rows_inside_canvas :
  forall (rows : Z) (amp y : F),
    (0 < rows)%Z ->
    (0 <= value_row rows amp y < rows)%Z /\ (0 <= mid_row rows amp < rows)%Z.
Proof.
  intros rows amp y Hrows; split;
    [ apply value_row_bounds | apply mid_row_bounds ]; exact Hrows.
Qed.

Lemma nth_update_same (A : Type) (n : nat) (x d : A) (l : list A) :
  (n < List.length l)%nat -> nth n (update n x l) d = x.
Proof.
  revert n; induction l as [ | a l IH ]; intros [ | n ] H; simpl in *;
    try lia; [ reflexivity | apply IH; lia ].
Qed.

Lemma nth_update_other (A : Type) (n m : nat) (x d : A) (l : list A) :
  n <> m -> nth m (update n x l) d = nth m l d.
Proof.
  revert n m; induction l as [ | a l IH ]; intros [ | n ] [ | m ] H; simpl;
    try reflexivity; try congruence.
  apply IH; congruence.
Qed.

Lemma update_out_of_range (A : Type) (n : nat) (x : A) (l : list A) :
  (List.length l <= n)%nat -> update n x l = l.
Proof.
  revert n; induction l as [ | a l IH ]; intros [ | n ] H; simpl in *;
    try reflexivity; try lia.
  f_equal; apply IH; lia.
Qed.

Lemma get_set_same (rows cols : nat) (cv : canvas) (r c : Z) (ch : ascii) :
  shaped rows cols cv ->
  (0 <= r < Z.of_nat rows)%Z -> (0 <= c < Z.of_nat cols)%Z ->
  get_cell (set_cell cv r c ch) r c = ch.
Proof.
  intros [Hlen Hall] Hr Hc; unfold get_cell, set_cell.
  rewrite nth_update_same by lia.
  apply nth_update_same.
  rewrite Forall_forall in Hall; rewrite (Hall (nth (Z.to_nat r) cv [])); [ lia | ].
  apply nth_In; lia.
Qed.

Lemma get_set_other (cv : canvas) (r c r' c' : Z) (ch : ascii) :
  (0 <= r)%Z -> (0 <= c)%Z -> (0 <= r')%Z -> (0 <= c')%Z ->
  r <> r' \/ c <> c' ->
  get_cell (set_cell cv r c ch) r' c' = get_cell cv r' c'.
Proof.
  intros Hr Hc Hr' Hc' Hne; unfold get_cell, set_cell.
  destruct (Z.eq_dec r r') as [<- | Hrr].
  - destruct Hne as [Hne | Hne]; [ congruence | ].
    destruct (Nat.lt_ge_cases (Z.to_nat r) (List.length cv)) as [Hin | Hout].
    + rewrite nth_update_same by exact Hin.
      apply nth_update_other; lia.
    + rewrite update_out_of_range by exact Hout; reflexivity.
  - rewrite nth_update_other by lia; reflexivity.
Qed.

Lemma get_blank_canvas (rows cols : nat) (r c : Z) :
  get_cell (repeat (repeat blank cols) rows) r c = blank.
Proof.
  unfold get_cell.
  destruct (Nat.lt_ge_cases (Z.to_nat r) rows) as [Hin | Hout].
  - rewrite (nth_indep _ [] (repeat blank cols)) by (rewrite repeat_length; exact Hin).
    rewrite nth_repeat.
    apply nth_repeat.
  - rewrite (nth_overflow (repeat (repeat blank cols) rows) [])
      by (rewrite repeat_length; exact Hout).
    destruct (Z.to_nat c); reflexivity.
Qed.

(** After the first loop a cell holds a star exactly where its column's
    value was drawn; the other cells are as they were. *)
Lemma plot_values_cells (yvals : list F) (rows : Z) (amp : F)
    (nr nc : nat) (columns : list Z) :
  (0 < rows)%Z -> Z.of_nat nr = rows ->
  (forall k, In k columns ->
     (0 <= k < Z.of_nat nc)%Z /\ (k < Z.of_nat (List.length yvals))%Z) ->
  forall cv, shaped nr nc cv ->
  exists cv',
    plot_values yvals rows amp columns cv = Some cv' /\
    shaped nr nc cv' /\
    forall r c, (0 <= r)%Z -> (0 <= c)%Z ->
      get_cell cv' r c =
      if in_dec Z.eq_dec c columns then
        if (r =? value_row rows amp (nth (Z.to_nat c) yvals (FofZ 0)))%Z
        then star else get_cell cv r c
      else get_cell cv r c.
Proof.
  intros Hrows Hnr.
  induction columns as [ | k columns IH ]; intros Hcols cv Hcv.
  - exists cv; repeat split; try apply Hcv.
  - destruct (Hcols k (or_introl eq_refl)) as [Hk Hky].
    simpl plot_values.
    destruct (nth_error yvals (Z.to_nat k)) as [ y | ] eqn:Hy;
      [ | apply nth_error_None in Hy; lia ].
    assert (Hnth : nth (Z.to_nat k) yvals (FofZ 0) = y)
      by (apply nth_error_nth; exact Hy).
    pose proof (value_row_bounds rows amp y Hrows) as Hvr.
    destruct (IH (fun j Hj => Hcols j (or_intror Hj))
                (set_cell cv (value_row rows amp y) k star)
                (set_cell_shaped nr nc cv _ _ _ Hcv))
      as (cv' & Hrun & Hshape & Hcells).
    exists cv'; split; [ exact Hrun | split; [ exact Hshape | ] ].
    intros r c Hr Hc; rewrite (Hcells r c Hr Hc).
    destruct (Z.eq_dec k c) as [-> | Hkc].
    + rewrite Hnth.
      destruct (in_dec Z.eq_dec c (c :: columns)) as [_ | Hn];
        [ | exfalso; apply Hn; left; reflexivity ].
      destruct (Z.eqb_spec r (value_row rows amp y)) as [-> | Hrv].
      * destruct (in_dec Z.eq_dec c columns); [ reflexivity | ].
        apply (get_set_same nr nc); [ exact Hcv | lia | lia ].
      * rewrite get_set_other by (try lia; left; congruence).
        destruct (in_dec Z.eq_dec c columns); reflexivity.
    + rewrite get_set_other by (try lia; right; exact Hkc).
      destruct (in_dec Z.eq_dec c columns) as [Hin | Hn];
        destruct (in_dec Z.eq_dec c (k :: columns)) as [Hin' | Hn'];
        try reflexivity.
      * exfalso; apply Hn'; right; exact Hin.
      * exfalso; destruct Hin' as [E | Hin']; [ congruence | contradiction ].
Qed.

(** After the second loop a blank cell of the axis row holds a dash. *)
Lemma draw_axis_cells (nr nc : nat) (mid : Z) (columns : list Z) :
  (0 <= mid < Z.of_nat nr)%Z ->
  (forall k, In k columns -> (0 <= k < Z.of_nat nc)%Z) ->
  forall cv, shaped nr nc cv ->
  forall r c, (0 <= r)%Z -> (0 <= c)%Z ->
    get_cell (draw_axis mid columns cv) r c =
    if in_dec Z.eq_dec c columns then
      if ((r =? mid)%Z && Ascii.eqb (get_cell cv r c) blank)%bool
      then dash else get_cell cv r c
    else get_cell cv r c.
Proof.
  intros Hmid; unfold draw_axis.
  induction columns as [ | k columns IH ]; intros Hcols cv Hcv r c Hr Hc.
  - reflexivity.
  - destruct (Hcols k (or_introl eq_refl)) as [Hk0 Hk1].
    simpl fold_left.
    set (cv1 := if Ascii.eqb (get_cell cv mid k) blank
                then set_cell cv mid k dash else cv).
    assert (Hcv1 : shaped nr nc cv1)
      by (unfold cv1; destruct (Ascii.eqb _ _);
          [ apply set_cell_shaped | ]; exact Hcv).
    rewrite (IH (fun j Hj => Hcols j (or_intror Hj)) cv1 Hcv1 r c Hr Hc).
    assert (Hget : get_cell cv1 r c =
              if (Z.eqb k c && (r =? mid)%Z && Ascii.eqb (get_cell cv r c) blank)%bool
              then dash else get_cell cv r c).
    { unfold cv1.
      destruct (Z.eqb_spec k c) as [-> | Hkc].
      - destruct (Z.eqb_spec r mid) as [-> | Hrm]; cbn [andb].
        + destruct (Ascii.eqb (get_cell cv mid c) blank) eqn:E; [ | reflexivity ].
          apply (get_set_same nr nc); [ exact Hcv | lia | lia ].
        + destruct (Ascii.eqb (get_cell cv mid c) blank); [ | reflexivity ].
          apply get_set_other; try lia; left; congruence.
      - cbn [andb].
        destruct (Ascii.eqb (get_cell cv mid k) blank); [ | reflexivity ].
        apply get_set_other; try lia; right; exact Hkc. }
    rewrite Hget.
    destruct (Z.eqb_spec k c) as [-> | Hkc]; cbn [andb].
    + destruct (in_dec Z.eq_dec c (c :: columns)) as [_ | Hn];
        [ | exfalso; apply Hn; left; reflexivity ].
      destruct (Z.eqb_spec r mid) as [-> | Hrm]; cbn [andb].
      * destruct (Ascii.eqb (get_cell cv mid c) blank) eqn:E.
        { destruct (in_dec Z.eq_dec c columns); [ | reflexivity ].
          change (Ascii.eqb dash blank) with false; reflexivity. }
        { destruct (in_dec Z.eq_dec c columns); [ rewrite E | ]; reflexivity. }
      * destruct (in_dec Z.eq_dec c columns); reflexivity.
    + destruct (in_dec Z.eq_dec c columns) as [Hin | Hn];
        destruct (in_dec Z.eq_dec c (k :: columns)) as [Hin' | Hn'];
        try reflexivity.
      * exfalso; apply Hn'; right; exact Hin.
      * exfalso; destruct Hin' as [E | Hin']; [ congruence | contradiction ].
Qed.

Lemma columns_of_complete (cols c : Z) :
  (0 <= c < cols)%Z -> In c (columns_of cols).
Proof.
  intros Hc; unfold columns_of, for_range; apply in_map_iff.
  exists (Z.to_nat c); split; [ lia | apply in_seq; lia ].
Qed.

Lemma rendered_canvas :
  forall (yv : list F) (cols rows : Z) (amp : F),
    (0 < cols)%Z -> (0 < rows)%Z -> (cols <= Z.of_nat (List.length yv))%Z ->
    exists cv : canvas,
      print_ascii_from_yvals (Some yv) cols rows amp
        = Printed (map string_of_list_ascii cv) /\
      shaped (Z.to_nat rows) (Z.to_nat cols) cv /\
      forall r c, (0 <= r < rows)%Z -> (0 <= c < cols)%Z ->
        get_cell cv r c =
        if (r =? value_row rows amp (nth (Z.to_nat c) yv (FofZ 0)))%Z then star
        else if (r =? mid_row rows amp)%Z then dash
        else blank.
Proof.
  intros yv cols rows amp Hcols Hrows Hlen; unfold print_ascii_from_yvals.
  destruct (Z.leb_spec cols 0); [ lia | ].
  destruct (Z.leb_spec rows 0); [ lia | ]; cbn [orb].
  destruct (plot_values_cells yv rows amp (Z.to_nat rows) (Z.to_nat cols)
              (columns_of cols) Hrows ltac:(lia))
    with (cv := repeat (repeat blank (Z.to_nat cols)) (Z.to_nat rows))
    as (cv1 & -> & Hshape1 & Hcells1).
  { intros k Hk; apply columns_of_range in Hk; lia. }
  { apply repeat_shaped. }
  pose proof (mid_row_bounds rows amp Hrows) as Hmid.
  exists (draw_axis (mid_row rows amp) (columns_of cols) cv1).
  split; [ reflexivity | ].
  split; [ apply draw_axis_shaped; exact Hshape1 | ].
  intros r c Hr Hc.
  rewrite (draw_axis_cells (Z.to_nat rows) (Z.to_nat cols)) with (cv := cv1);
    [ | lia | intros k Hk; apply columns_of_range in Hk; lia
      | exact Hshape1 | lia | lia ].
  rewrite Hcells1 by lia.
  pose proof (columns_of_complete cols c Hc) as Hin.
  destruct (in_dec Z.eq_dec c (columns_of cols)) as [_ | Hn]; [ | contradiction ].
  rewrite get_blank_canvas.
  destruct (Z.eqb_spec r (value_row rows amp (nth (Z.to_nat c) yv (FofZ 0)))).
  - destruct (r =? mid_row rows amp)%Z; reflexivity.
  - destruct (r =? mid_row rows amp)%Z; reflexivity.
Qed.

(** X1.  The grid the renderer prints, cell by cell: column [c] holds a
    star on the row of its value, a dash on the axis row unless the star
    is there, and blanks everywhere else. *)
Theorem render_grid_cells :
  forall (yv : list F) (cols rows : Z) (amp : F),
    (0 < cols)%Z -> (0 < rows)%Z -> (cols <= Z.of_nat (List.length yv))%Z ->
    exists cv : canvas,
      print_ascii_from_yvals (Some yv) cols rows amp
        = Printed (map string_of_list_ascii cv) /\
      shaped (Z.to_nat rows) (Z.to_nat cols) cv /\
      forall r c, (0 <= r < rows)%Z -> (0 <= c < cols)%Z ->
        get_cell cv r c =
        if (r =? value_row rows amp (nth (Z.to_nat c) yv (FofZ 0)))%Z then star
        else if (r =? mid_row rows amp)%Z then dash
        else blank.
Proof. exact rendered_canvas. Qed.

(** The renderer on a full buffer of [N] values: [rows] lines of [N]
    characters. *)
Lemma rendered_buffer (N rows : Z) (amp : F) (body : Z -> F) :
  (0 < N)%Z -> (0 < rows)%Z ->
  exists lines,
    print_ascii_from_yvals (Some (for_range N body)) N rows amp = Printed lines /\
    List.length lines = Z.to_nat rows /\
    Forall (fun line => String.length line = Z.to_nat N) lines.
Proof.
  intros HN Hrows.
  destruct (rendered_canvas (for_range N body) N rows amp HN Hrows)
    as (cv & Hrun & [Hlen Hall] & _).
  { rewrite for_range_length; lia. }
  exists (map string_of_list_ascii cv); split; [ exact Hrun | ].
  split; [ rewrite length_map; exact Hlen | ].
  apply Forall_map; revert Hall; apply Forall_impl; intros line Hline.
  rewrite string_of_list_ascii_length; exact Hline.
Qed.

End RendererCells.

(** ** The sampler in exact arithmetic: period, range, shapes *)

Section SamplerShapes.

Local Open Scope R_scope.

Lemma trunc_plus_one (x : R) : 0 <= x -> Exact.trunc (x + 1) = (Exact.trunc x + 1)%Z.
Proof.
  intros Hx; destruct (trunc_floor_bounds x Hx) as [Hlo Hhi].
  apply trunc_nonneg_floor; [ rewrite plus_IZR; lra | lra ].
Qed.

Lemma fmod_next_period (t T : R) :
  0 <= t -> 0 < T -> Exact.fmod (t + T) T = Exact.fmod t T.
Proof.
  intros Ht HT; unfold Exact.fmod.
  assert (Hq : 0 <= t / T)
    by (apply Rmult_le_pos; [ lra | left; apply Rinv_0_lt_compat; lra ]).
  replace ((t + T) / T) with (t / T + 1) by (field; lra).
  rewrite trunc_plus_one by exact Hq.
  rewrite plus_IZR; ring.
Qed.

Lemma position_next_period (f t : R) :
  0 < f -> 0 <= t -> Spec.position f (t + 1 / f) = Spec.position f t.
Proof.
  intros Hf Ht; unfold Spec.position.
  rewrite fmod_next_period; [ reflexivity | exact Ht | ].
  apply Rdiv_lt_0_compat; lra.
Qed.

Lemma sine_next_period (st : config R) (t : R) :
  fre_sin st <> 0 ->
  sample_base_waveform st 1 (t + 1 / fre_sin st) = sample_base_waveform st 1 t.
Proof.
  intros Hf; unfold sample_base_waveform; exact_ops.
  replace (2 * PI * fre_sin st * (t + 1 / fre_sin st) + phase_sin st)
    with (2 * PI * fre_sin st * t + phase_sin st + 2 * PI) by (field; exact Hf).
  rewrite sin_plus, sin_2PI, cos_2PI; f_equal; ring.
Qed.

Lemma guarded_sample_by_position (st : config R) (t : R) :
  (0 < fre_squ st ->
     sample_base_waveform st 2 t =
     if Rlt_dec (Spec.position (fre_squ st) t) (duty_cycle st)
     then amp_squ st else - amp_squ st) /\
  (0 < fre_saw st ->
     sample_base_waveform st 4 t =
     - amp_saw st + 2 * amp_saw st * Spec.position (fre_saw st) t).
Proof.
  split; intros Hf; unfold sample_base_waveform, Spec.position; exact_ops;
    rewrite (leb_false _ _ Hf); [ | reflexivity ].
  unfold Exact.ltb; destruct (Rlt_dec _ _); reflexivity.
Qed.

(** X3.  Each waveform repeats after one period [1/f] of its own
    frequency: the sine at every time (for [f <> 0]), the square, the
    triangle and the sawtooth at every time [t >= 0] (for [f > 0]). *)
Theorem base_waveforms_periodic :
  forall (st : config R) (t : R),
    (fre_sin st <> 0 ->
       sample_base_waveform st 1 (t + 1 / fre_sin st) = sample_base_waveform st 1 t) /\
    (0 < fre_squ st -> 0 <= t ->
       sample_base_waveform st 2 (t + 1 / fre_squ st) = sample_base_waveform st 2 t) /\
    (0 < fre_tra st -> 0 <= t ->
       sample_base_waveform st 3 (t + 1 / fre_tra st) = sample_base_waveform st 3 t) /\
    (0 < fre_saw st -> 0 <= t ->
       sample_base_waveform st 4 (t + 1 / fre_saw st) = sample_base_waveform st 4 t).
Proof.
  intros st t; split; [ apply sine_next_period | ].
  destruct (guarded_sample_by_position st t) as [Hsq Hsw].
  destruct (guarded_sample_by_position st (t + 1 / fre_squ st)) as [Hsq' _].
  destruct (guarded_sample_by_position st (t + 1 / fre_saw st)) as [_ Hsw'].
  split; [ | split ].
  - intros Hf Ht; rewrite Hsq', Hsq, position_next_period by assumption.
    reflexivity.
  - intros Hf Ht; rewrite !triangle_sample_by_position by exact Hf.
    rewrite position_next_period by assumption; reflexivity.
  - intros Hf Ht; rewrite Hsw', Hsw, position_next_period by assumption.
    reflexivity.
Qed.

Lemma position_in_unit_interval (f t : R) :
  0 < f -> 0 <= t -> 0 <= Spec.position f t < 1.
Proof.
  intros Hf Ht; unfold Spec.position; apply pos_in_unit_interval;
    [ exact Ht | apply Rdiv_lt_0_compat; lra ].
Qed.

Lemma quotient_bound_to_abs (x a : R) :
  a <> 0 -> -1 <= x / a <= 1 -> Rabs x <= Rabs a.
Proof.
  intros Ha [Hlo Hhi].
  assert (Hq : Rabs (x / a) <= 1) by (apply Rabs_le; lra).
  unfold Rdiv in Hq; rewrite Rabs_mult, Rabs_inv in Hq.
  assert (Hpos : 0 < Rabs a) by (apply Rabs_pos_lt; exact Ha).
  apply (Rmult_le_compat_r (Rabs a)) in Hq; [ | lra ].
  rewrite Rmult_assoc, Rinv_l in Hq by lra; lra.
Qed.

Lemma sample_zero_amplitude (st : config R) (waveform_type : Z) (t : R) :
  amp_base_of st waveform_type = 0 ->
  waveform_type = 1%Z \/ waveform_type = 2%Z \/
  waveform_type = 3%Z \/ waveform_type = 4%Z ->
  sample_base_waveform st waveform_type t = 0.
Proof.
  intros HA [-> | [-> | [-> | ->]]]; cbn in HA;
    unfold sample_base_waveform; exact_ops; rewrite HA.
  - ring.
  - destruct (Exact.leb _ _); [ reflexivity | ].
    destruct (Exact.ltb _ _); ring.
  - destruct (Exact.leb _ _); [ reflexivity | ].
    destruct (Exact.ltb _ _); ring.
  - destruct (Exact.leb _ _); [ reflexivity | ]; ring.
Qed.

Lemma sample_within_amplitude (st : config R) (waveform_type : Z) (t : R) :
  0 <= t ->
  Rabs (sample_base_waveform st waveform_type t) <= Rabs (amp_base_of st waveform_type).
Proof.
  intros Ht.
  destruct (Req_dec_T (amp_base_of st waveform_type) 0) as [HA | HA].
  - destruct (Z.eq_dec waveform_type 1) as [E1 | N1];
      [ rewrite sample_zero_amplitude by tauto; rewrite Rabs_R0; apply Rabs_pos | ].
    destruct (Z.eq_dec waveform_type 2) as [E2 | N2];
      [ rewrite sample_zero_amplitude by tauto; rewrite Rabs_R0; apply Rabs_pos | ].
    destruct (Z.eq_dec waveform_type 3) as [E3 | N3];
      [ rewrite sample_zero_amplitude by tauto; rewrite Rabs_R0; apply Rabs_pos | ].
    destruct (Z.eq_dec waveform_type 4) as [E4 | N4];
      [ rewrite sample_zero_amplitude by tauto; rewrite Rabs_R0; apply Rabs_pos | ].
    rewrite default_branch by assumption.
    exact_ops; rewrite Rabs_R0; apply Rabs_pos.
  - apply quotient_bound_to_abs; [ exact HA | ].
    apply base_quotient_bounded; assumption.
Qed.

(** X4.  At every time [t >= 0] a sample of any kind lies within the
    configured amplitude: [|sample| <= |amplitude|] for kinds 1 to 4 (and
    the sample of an unknown kind is 0). *)
Theorem base_sample_within_amplitude :
  forall (st : config R) (t : R),
    0 <= t ->
    Rabs (sample_base_waveform st 1 t) <= Rabs (amp_sin st) /\
    Rabs (sample_base_waveform st 2 t) <= Rabs (amp_squ st) /\
    Rabs (sample_base_waveform st 3 t) <= Rabs (amp_tra st) /\
    Rabs (sample_base_waveform st 4 t) <= Rabs (amp_saw st).
Proof.
  intros st t Ht; repeat split.
  - apply (sample_within_amplitude st 1 t Ht).
  - apply (sample_within_amplitude st 2 t Ht).
  - apply (sample_within_amplitude st 3 t Ht).
  - apply (sample_within_amplitude st 4 t Ht).
Qed.

(** X5.  The square wave at [f > 0], [t >= 0]: a duty cycle of 0 (or
    less) gives [-amplitude] at every time, a duty cycle of 1 (or more)
    gives [+amplitude] at every time. *)
Theorem square_extreme_duty :
  forall (st : config R) (t : R),
    0 < fre_squ st -> 0 <= t ->
    (duty_cycle st <= 0 -> sample_base_waveform st 2 t = - amp_squ st) /\
    (1 <= duty_cycle st -> sample_base_waveform st 2 t = amp_squ st).
Proof.
  intros st t Hf Ht.
  destruct (guarded_sample_by_position st t) as [Hsq _].
  destruct (position_in_unit_interval (fre_squ st) t Hf Ht) as [Hlo Hhi].
  rewrite (Hsq Hf); split; intros Hd;
    destruct (Rlt_dec _ _); try reflexivity; lra.
Qed.

(** X6.  The sawtooth at [f > 0]: it is the ramp [-amp + 2*amp*pos]; it
    starts a period at [-amp] ([t = 0]); for [amp > 0] and [t >= 0] it
    stays in [-amp, amp) and never reaches [+amp]; it tends to [+amp] as
    [pos] tends to 1 from below. *)
Theorem sawtooth_ramp :
  forall st : config R,
    0 < fre_saw st ->
    let amp := amp_saw st in
    let pos := Spec.position (fre_saw st) in
    let sample := sample_base_waveform st 4 in
    (forall t, sample t = - amp + 2 * amp * pos t) /\
    sample 0 = - amp /\
    (0 < amp -> forall t, 0 <= t -> - amp <= sample t < amp) /\
    (forall eps, 0 < eps -> exists delta, 0 < delta /\
       forall t, 1 - delta < pos t < 1 -> Rabs (sample t - amp) < eps).
Proof.
  intros st Hf amp pos sample.
  assert (Hramp : forall t, sample t = - amp + 2 * amp * pos t).
  { intros t; destruct (guarded_sample_by_position st t) as [_ H]; exact (H Hf). }
  assert (HT : 0 < 1 / fre_saw st) by (apply Rdiv_lt_0_compat; lra).
  split; [ exact Hramp | split; [ | split ] ].
  - rewrite Hramp; unfold pos, Spec.position.
    rewrite fmod_below_period by lra.
    unfold Rdiv at 1; rewrite Rmult_0_l; ring.
  - intros Hamp t Ht; rewrite Hramp.
    destruct (position_in_unit_interval (fre_saw st) t Hf Ht) as [Hlo Hhi].
    fold pos in Hlo, Hhi; split; nra.
  - intros eps Heps.
    exists (eps / (4 * Rabs amp + 1)); split.
    { pose proof (Rabs_pos amp); apply Rdiv_lt_0_compat; lra. }
    intros t [Hlo Hhi]; rewrite Hramp.
    replace (- amp + 2 * amp * pos t - amp) with (4 * amp * ((pos t - 1) / 2))
      by field.
    apply scaled_distance_small; [ exact Heps | ].
    pose proof (Rabs_pos amp) as Ha.
    assert (Hd : 0 < eps / (4 * Rabs amp + 1)) by (apply Rdiv_lt_0_compat; lra).
    apply Rabs_def1; lra.
Qed.

End SamplerShapes.

(** ** The renderer in exact arithmetic: orientation *)

Section RendererOrientation.

Local Open Scope R_scope.

Lemma trunc_monotone (x y : R) :
  0 <= x -> x <= y -> (Exact.trunc x <= Exact.trunc y)%Z.
Proof.
  intros Hx Hxy.
  destruct (trunc_floor_bounds x Hx) as [Hlo _].
  destruct (trunc_floor_bounds y ltac:(lra)) as [_ Hhi].
  assert (H : IZR (Exact.trunc x) < IZR (Exact.trunc y + 1))
    by (rewrite plus_IZR; lra).
  apply lt_IZR in H; lia.
Qed.

(** The clamped fraction of the first loop. *)
Lemma value_row_by_fraction (rows : Z) (amp y : R) :
  amp <> 0 ->
  value_row rows amp y =
  let frac := Rmax 0 (Rmin 1 ((amp - y) / (2 * amp))) in
  let row := Exact.trunc (frac * IZR (rows - 1) + / 2) in
  let row := if (row <? 0)%Z then 0%Z else row in
  if (row >=? rows)%Z then (rows - 1)%Z else row.
Proof.
  intros Hamp; unfold value_row; exact_ops; cbv zeta.
  rewrite (eqb_false amp 0 Hamp); cbn [negb].
  set (q := (amp - y) / (2 * amp)).
  assert (E : (if Exact.ltb 1 (if Exact.ltb q 0 then 0 else q) then 1
               else if Exact.ltb q 0 then 0 else q) = Rmax 0 (Rmin 1 q)).
  { unfold Exact.ltb, Rmax, Rmin.
    destruct (Rlt_dec q 0); destruct (Rle_dec 1 q);
      repeat (destruct (Rlt_dec _ _) || destruct (Rle_dec _ _)); lra. }
  rewrite E; reflexivity.
Qed.

Lemma clamped_row_unchanged (rows r : Z) :
  (0 <= r < rows)%Z ->
  (let row := if (r <? 0)%Z then 0%Z else r in
   if (row >=? rows)%Z then (rows - 1)%Z else row) = r.
Proof.
  intros H; cbv zeta.
  destruct (Z.ltb_spec r 0); [ lia | ].
  destruct (Z.geb_spec r rows); [ lia | reflexivity ].
Qed.

Lemma row_of_fraction_monotone (rows : Z) (p q : R) :
  (0 < rows)%Z -> 0 <= p -> p <= q ->
  ((let row := Exact.trunc (p * IZR (rows - 1) + / 2) in
    let row := if (row <? 0)%Z then 0%Z else row in
    if (row >=? rows)%Z then (rows - 1)%Z else row)
   <=
   (let row := Exact.trunc (q * IZR (rows - 1) + / 2) in
    let row := if (row <? 0)%Z then 0%Z else row in
    if (row >=? rows)%Z then (rows - 1)%Z else row))%Z.
Proof.
  intros Hrows Hp Hpq; cbv zeta.
  assert (Hn : 0 <= IZR (rows - 1)) by (apply IZR_le; lia).
  assert (Hm : (Exact.trunc (p * IZR (rows - 1) + / 2)
                <= Exact.trunc (q * IZR (rows - 1) + / 2))%Z)
    by (apply trunc_monotone; nra).
  repeat match goal with
         | |- context [(?a <? ?b)%Z] => destruct (Z.ltb_spec a b)
         | |- context [(?a >=? ?b)%Z] => destruct (Z.geb_spec a b)
         end; lia.
Qed.

Lemma value_row_top (rows : Z) (amp y : R) :
  (0 < rows)%Z -> 0 < amp -> amp <= y -> value_row rows amp y = 0%Z.
Proof.
  intros Hrows Hamp Hy.
  rewrite (value_row_by_fraction rows amp y) by lra; cbv zeta.
  assert (Hq : (amp - y) / (2 * amp) <= 0).
  { apply (Rmult_le_reg_r (2 * amp)); [ lra | ].
    unfold Rdiv; rewrite Rmult_assoc, Rinv_l by lra; lra. }
  rewrite Rmin_right by lra; rewrite Rmax_left by lra.
  rewrite Rmult_0_l, Rplus_0_l.
  rewrite (trunc_nonneg_floor (/ 2) 0) by (simpl; lra).
  apply (clamped_row_unchanged rows 0); lia.
Qed.

Lemma value_row_bottom (rows : Z) (amp y : R) :
  (0 < rows)%Z -> 0 < amp -> y <= - amp -> value_row rows amp y = (rows - 1)%Z.
Proof.
  intros Hrows Hamp Hy.
  assert (Hn : 0 <= IZR (rows - 1)) by (apply IZR_le; lia).
  rewrite (value_row_by_fraction rows amp y) by lra; cbv zeta.
  assert (Hq : 1 <= (amp - y) / (2 * amp)).
  { apply (Rmult_le_reg_r (2 * amp)); [ lra | ].
    unfold Rdiv; rewrite Rmult_assoc, Rinv_l by lra; lra. }
  rewrite Rmin_left by lra; rewrite Rmax_right by lra.
  rewrite Rmult_1_l.
  rewrite (trunc_nonneg_floor (IZR (rows - 1) + / 2) (rows - 1)) by lra.
  apply (clamped_row_unchanged rows (rows - 1)); lia.
Qed.

Lemma value_row_of_zero (rows : Z) (amp : R) :
  (0 < rows)%Z -> amp <> 0 -> value_row rows amp 0 = (rows / 2)%Z.
Proof.
  intros Hrows Hnz.
  rewrite (value_row_by_fraction rows amp 0 Hnz); cbv zeta.
  replace ((amp - 0) / (2 * amp)) with (/ 2) by (field; exact Hnz).
  rewrite Rmin_right by lra; rewrite Rmax_right by lra.
  rewrite trunc_half_integer by lia.
  replace (rows - 1 + 1)%Z with rows by lia.
  apply (clamped_row_unchanged rows (rows / 2));
    split; [ apply Z.div_pos; lia | apply Z.div_lt_upper_bound; lia ].
Qed.

(** X7.  With a positive amplitude and [rows > 0]: a value of [+amp] or
    more is drawn on the top row, a value of [-amp] or less on the bottom
    row, the value 0 on the axis row [rows / 2], and a larger value is
    never drawn below a smaller one. *)
Theorem renderer_orientation :
  forall (rows : Z) (amp : R),
    (0 < rows)%Z -> 0 < amp ->
    (forall y, amp <= y -> value_row rows amp y = 0%Z) /\
    (forall y, y <= - amp -> value_row rows amp y = (rows - 1)%Z) /\
    value_row rows amp 0 = mid_row rows amp /\
    (forall y1 y2, y1 <= y2 -> (value_row rows amp y2 <= value_row rows amp y1)%Z).
Proof.
  intros rows amp Hrows Hamp.
  assert (Hnz : amp <> 0) by lra.
  repeat split.
  - intros y Hy; apply value_row_top; assumption.
  - intros y Hy; apply value_row_bottom; assumption.
  - rewrite mid_row_nonzero_amp, value_row_of_zero by assumption; reflexivity.
  - intros y1 y2 Hy.
    rewrite (value_row_by_fraction rows amp y1 Hnz),
            (value_row_by_fraction rows amp y2 Hnz).
    apply row_of_fraction_monotone; [ exact Hrows | apply Rmax_l | ].
    assert (Hq : (amp - y2) / (2 * amp) <= (amp - y1) / (2 * amp)).
    { apply Rmult_le_compat_r; [ left; apply Rinv_0_lt_compat; lra | lra ]. }
    apply Rle_max_compat_l, Rle_min_compat_l; exact Hq.
Qed.

End RendererOrientation.

(** ** Displays: fixed shape, whatever the arithmetic *)

Section DisplayShapes.

Context {F : Type} {ops : FloatOps F}.

Lemma display_of_loops (tbl : Z -> F * F) (body : Z -> F) (amp : F) :
  well_formed_display
    {| table := for_range TABLE_SAMPLES tbl;
       yval := for_range DEFAULT_SAMPLES body;
       plot := print_ascii_from_yvals (Some (for_range DEFAULT_SAMPLES body))
                 DEFAULT_SAMPLES ASCII_ROWS amp |}.
Proof.
  unfold well_formed_display; cbn [table yval plot].
  rewrite !for_range_length.
  split; [ reflexivity | split; [ reflexivity | ] ].
  destruct (rendered_buffer DEFAULT_SAMPLES ASCII_ROWS amp body)
    as (lines & Hrun & Hlen & Hall); [ reflexivity | reflexivity | ].
  exists lines; split; [ exact Hrun | split; [ exact Hlen | exact Hall ] ].
Qed.

(** X8.  A base display either refuses (its frequency compares
    [<= 0.0f]) or is complete: 8 table rows, 100 plot values and a grid of
    21 lines of 100 characters, for every configuration and every float
    arithmetic, NaN and infinities included. *)
Theorem base_displays_refuse_or_complete :
  forall st : config F,
    (if Fleb (fre_sin st) (FofZ 0) then sine_plot st = None
     else exists d, sine_plot st = Some d /\ well_formed_display d) /\
    (if Fleb (fre_squ st) (FofZ 0) then square_plot st = None
     else exists d, square_plot st = Some d /\ well_formed_display d) /\
    (if Fleb (fre_tra st) (FofZ 0) then triangle_plot st = None
     else exists d, triangle_plot st = Some d /\ well_formed_display d) /\
    (if Fleb (fre_saw st) (FofZ 0) then sawtooth_plot st = None
     else exists d, sawtooth_plot st = Some d /\ well_formed_display d).
Proof.
  intros st; unfold sine_plot, square_plot, triangle_plot, sawtooth_plot.
  repeat split;
    match goal with |- context [Fleb ?a ?b] => destruct (Fleb a b) end;
    try reflexivity;
    (eexists; split; [ reflexivity | apply display_of_loops ]).
Qed.

(** X9.  The three modulation routines never refuse: for every
    configuration, kind and parameters (a carrier frequency that is zero,
    negative or NaN included) each yields a complete display. *)
Theorem modulation_displays_complete :
  forall (st : config F) (waveform_type : Z) (a b c : F),
    well_formed_display (run_AM st waveform_type a b c) /\
    well_formed_display (run_FM st waveform_type a b c) /\
    well_formed_display (run_PWM st waveform_type a b).
Proof.
  intros; repeat split; apply display_of_loops.
Qed.

End DisplayShapes.

(** ** Modulation in exact arithmetic: range and degenerate base *)

Section ModulationRange.

Local Open Scope R_scope.

(** X10.  For [f > 0] the plot values of the sine display are
    [amp * sin (2 pi f t + phase)] at [t = i*(1/f)/100]: the time shift of
    the plot loop and the phase in the angle of the table loop describe one
    and the same signal. *)
Theorem sine_plot_samples_table_signal :
  forall st : config R,
    0 < fre_sin st ->
    exists d : display R,
      sine_plot st = Some d /\
      yval d =
        for_range 100 (fun i =>
          amp_sin st *
          sin (2 * PI * fre_sin st * (IZR i * (1 / fre_sin st) / 100)
               + phase_sin st)).
Proof.
  intros st Hf; unfold sine_plot; exact_ops.
  rewrite (leb_false _ _ Hf), (eqb_false (fre_sin st) 0) by lra.
  eexists; split; [ reflexivity | ].
  cbn [yval negb]; apply for_range_ext; intros i _; unfold DEFAULT_SAMPLES.
  rewrite time_shift_restores_phase by lra.
  do 3 f_equal; unfold Rdiv; ring.
Qed.

Lemma xnorm_bounded (st : config R) (waveform_type : Z) (t : R) :
  0 <= t -> -1 <= xnorm_at st waveform_type t <= 1.
Proof.
  intros Ht.
  destruct (Req_dec_T (amp_base_of st waveform_type) 0) as [HA | HA].
  - rewrite (xnorm_zero_amplitude (ops := Exact.ops)); exact_ops; [ lra | ].
    rewrite HA; apply eqb_true.
  - rewrite (xnorm_is_quotient st waveform_type t HA).
    apply base_quotient_bounded; assumption.
Qed.

Lemma AM_sample_bounded (st : config R) (waveform_type : Z) (Ac fc m t : R) :
  0 <= t ->
  Rabs (AM_sample st waveform_type Ac fc m t) <= Rabs (Ac * (1 + Rabs m)).
Proof.
  intros Ht; unfold AM_sample; exact_ops.
  pose proof (xnorm_bounded st waveform_type t Ht) as Hx.
  set (x := xnorm_at st waveform_type t) in *.
  pose proof (SIN_bound (2 * PI * fc * t)) as Hs.
  set (s := sin (2 * PI * fc * t)) in *.
  rewrite !Rabs_mult.
  assert (Hx1 : Rabs x <= 1) by (apply Rabs_le; lra).
  assert (Hs1 : Rabs s <= 1) by (apply Rabs_le; lra).
  assert (Henv : Rabs (1 + m * x) <= 1 + Rabs m).
  { eapply Rle_trans; [ apply Rabs_triang | ].
    rewrite Rabs_R1, Rabs_mult.
    pose proof (Rabs_pos m); pose proof (Rabs_pos x); nra. }
  rewrite (Rabs_right (1 + Rabs m)) by (pose proof (Rabs_pos m); lra).
  pose proof (Rabs_pos Ac); pose proof (Rabs_pos (1 + m * x));
    pose proof (Rabs_pos s); pose proof (Rabs_pos m).
  assert (Hb1 : Rabs Ac * Rabs (1 + m * x) <= Rabs Ac * (1 + Rabs m))
    by (apply Rmult_le_compat_l; assumption).
  assert (Hb2 : Rabs Ac * Rabs (1 + m * x) * Rabs s
               <= Rabs Ac * Rabs (1 + m * x) * 1).
  { apply Rmult_le_compat_l; [ apply Rmult_le_pos; assumption | exact Hs1 ]. }
  lra.
Qed.

Lemma FM_sample_bounded (st : config R) (waveform_type : Z) (Ac fc beta t : R) :
  Rabs (FM_sample st waveform_type Ac fc beta t) <= Rabs Ac.
Proof.
  unfold FM_sample; exact_ops.
  match goal with |- context [sin ?a] => pose proof (SIN_bound a) as Hs;
    set (s := sin a) in * end.
  rewrite Rabs_mult.
  assert (Hs1 : Rabs s <= 1) by (apply Rabs_le; lra).
  pose proof (Rabs_pos Ac); nra.
Qed.

Lemma PWM_sample_two_levels (st : config R) (waveform_type : Z) (Ac period t : R) :
  PWM_sample st waveform_type Ac period t = Ac \/
  PWM_sample st waveform_type Ac period t = - Ac.
Proof.
  unfold PWM_sample; exact_ops; destruct (Exact.ltb _ _); [ left | right ];
    reflexivity.
Qed.

Lemma loop_values_Forall (P : R -> Prop) (fc : R) (N : Z) (body : R -> R) :
  (0 < N)%Z ->
  (forall t, 0 <= t -> P (body t)) ->
  Forall P (for_range N (fun i => body (IZR i * (carrier_period fc / IZR N)))).
Proof.
  intros HN Hbody; unfold for_range; apply Forall_forall; intros y Hy.
  apply in_map_iff in Hy; destruct Hy as (k & <- & _).
  apply Hbody, sample_time_nonneg; lia.
Qed.

(** X11.  Every plot value of a modulation routine lies within the scale
    the routine hands to the renderer: [|y| <= |Ac * (1 + |m|)|] for AM,
    [|y| <= |Ac|] for FM, and [y] is [+Ac] or [-Ac] for PWM. *)
Theorem modulated_values_within_display_scale :
  forall (st : config R) (waveform_type : Z) (Ac fc m : R),
    Forall (fun y => Rabs y <= Rabs (Ac * (1 + Rabs m)))
           (yval (run_AM st waveform_type Ac fc m)) /\
    Forall (fun y => Rabs y <= Rabs Ac)
           (yval (run_FM st waveform_type Ac fc m)) /\
    Forall (fun y => y = Ac \/ y = - Ac)
           (yval (run_PWM st waveform_type fc Ac)).
Proof.
  intros st wt Ac fc m; unfold run_AM, run_FM, run_PWM; cbn [yval]; exact_ops.
  split; [ | split ].
  - apply (loop_values_Forall _ fc DEFAULT_SAMPLES
             (fun t => AM_sample st wt Ac fc m t)); [ reflexivity | ].
    intros t Ht; apply AM_sample_bounded; exact Ht.
  - apply (loop_values_Forall _ fc DEFAULT_SAMPLES
             (fun t => FM_sample st wt Ac fc m t)); [ reflexivity | ].
    intros t _; apply FM_sample_bounded.
  - apply (loop_values_Forall _ fc DEFAULT_SAMPLES
             (fun t => PWM_sample st wt Ac (carrier_period fc) t));
      [ reflexivity | ].
    intros t _; apply PWM_sample_two_levels.
Qed.

(** X12.  With a base amplitude of 0 the modulating signal vanishes: AM
    and FM give the bare carrier [Ac * sin (2 pi fc t)], and PWM compares 0
    with the ramp, so it is [+Ac] in the first half of each switching
    period and [-Ac] in the second half. *)
Theorem zero_base_amplitude_leaves_carrier :
  forall (st : config R) (waveform_type : Z) (Ac fc m t : R),
    amp_base_of st waveform_type = 0 ->
    AM_sample st waveform_type Ac fc m t = Ac * sin (2 * PI * fc * t) /\
    FM_sample st waveform_type Ac fc m t = Ac * sin (2 * PI * fc * t) /\
    PWM_sample st waveform_type Ac (carrier_period fc) t =
      if Rlt_dec (Exact.fmod t (carrier_period fc) / carrier_period fc) (/ 2)
      then Ac else - Ac.
Proof.
  intros st wt Ac fc m t HA.
  assert (Hx : xnorm_at st wt t = 0).
  { apply (xnorm_zero_amplitude (ops := Exact.ops)); exact_ops.
    rewrite HA; apply eqb_true. }
  unfold AM_sample, FM_sample, PWM_sample; exact_ops; rewrite Hx.
  split; [ ring | split; [ f_equal; f_equal; ring | ] ].
  unfold Exact.ltb.
  destruct (Rlt_dec _ 0), (Rlt_dec _ (/ 2)); try reflexivity; lra.
Qed.

End ModulationRange.

(** ** Menu input *)

Section MenuInput.

Local Open Scope string_scope.

Lemma all_digits_spec (s : string) :
  all_digits s = true <->
  Forall (fun c => isdigit c = true) (list_ascii_of_string s).
Proof.
  induction s as [ | c s IH ]; simpl.
  - split; [ constructor | reflexivity ].
  - destruct (isdigit c) eqn:Hc.
    + rewrite IH; split; [ intros H; constructor; assumption | ].
      intros H; inversion H; assumption.
    + split; [ discriminate | ].
      intros H; inversion H; congruence.
Qed.

Lemma sign_is_no_digit (c : ascii) :
  (Ascii.eqb c "+" || Ascii.eqb c "-")%bool = true -> isdigit c = false.
Proof.
  intros H; apply orb_true_iff in H.
  destruct H as [H | H]; apply Ascii.eqb_eq in H; subst; reflexivity.
Qed.

(** X13.  [is_integer] accepts exactly the strings made of an optional
    sign [+] or [-] followed by at least one decimal digit; the null
    pointer, the empty string, a bare sign and anything with another
    character in it are refused. *)
Theorem is_integer_accepts_signed_digits :
  forall num : option string,
    is_integer num = true <->
    exists sign digits,
      num = Some (sign ++ digits) /\
      (sign = "" \/ sign = "+" \/ sign = "-") /\
      digits <> "" /\
      Forall (fun c => isdigit c = true) (list_ascii_of_string digits).
Proof.
  intros [ [ | c rest ] | ]; simpl.
  - split; [ discriminate | ].
    intros (sign & digits & E & Hs & Hd & _); injection E as E.
    destruct Hs as [-> | [-> | ->]]; simpl in E; try discriminate.
    congruence.
  - destruct (Ascii.eqb c "+" || Ascii.eqb c "-")%bool eqn:Hsign.
    + split.
      * intros H.
        assert (Hrest : rest <> "" /\ all_digits rest = true)
          by (destruct rest; [ discriminate | split; [ discriminate | exact H ] ]).
        destruct Hrest as [Hne Hall].
        exists (String c ""), rest; split; [ reflexivity | ].
        split; [ | split; [ exact Hne | apply all_digits_spec; exact Hall ] ].
        apply orb_true_iff in Hsign.
        destruct Hsign as [E | E]; apply Ascii.eqb_eq in E; subst; auto.
      * intros (sign & digits & E & Hs & Hd & Hall); injection E as E.
        destruct Hs as [-> | [-> | ->]]; simpl in E.
        { subst digits; inversion Hall as [ | ? ? Hc _ ]; subst.
          rewrite (sign_is_no_digit c Hsign) in Hc; discriminate. }
        { injection E as _ ->.
          destruct digits; [ congruence | apply all_digits_spec; exact Hall ]. }
        { injection E as _ ->.
          destruct digits; [ congruence | apply all_digits_spec; exact Hall ]. }
    + change (if isdigit c then all_digits rest else false)
        with (all_digits (String c rest)).
      split.
      * intros H; exists "", (String c rest); split; [ reflexivity | ].
        split; [ left; reflexivity | split; [ discriminate | ] ].
        apply all_digits_spec; exact H.
      * intros (sign & digits & E & Hs & Hd & Hall); injection E as E.
        destruct Hs as [-> | [-> | ->]]; simpl in E.
        { subst digits; apply all_digits_spec; exact Hall. }
        { injection E as -> _; discriminate Hsign. }
        { injection E as -> _; discriminate Hsign. }
  - split; [ discriminate | ].
    intros (sign & digits & E & _); discriminate E.
Qed.

Lemma selected_in_menu (words : list string) (input : Z) :
  get_user_input words = Selected input -> (1 <= input <= 4)%Z.
Proof.
  induction words as [ | w words IH ]; cbn [get_user_input]; [ discriminate | ].
  destruct (is_integer (Some w)); [ | exact IH ].
  destruct (atoi w) as [ n | ]; [ | discriminate ].
  destruct (Z.geb_spec n 1); destruct (Z.leb_spec n 4); cbn [andb];
    try exact IH.
  intros E; injection E as <-; lia.
Qed.

(** X14.  [get_user_input] hands back nothing but 1, 2, 3 or 4, whatever
    is typed, so the [default] branch of [select_menu_item] ("Wrong number
    to select") is never taken on its result; and the word that was
    accepted is an integer in the sense of [is_integer] whose value is the
    item. *)
Theorem menu_selection_in_range :
  forall (words : list string) (input : Z),
    get_user_input words = Selected input ->
    (1 <= input <= 4)%Z /\
    select_menu_item input <> wrong_number /\
    exists word,
      In word words /\ is_integer (Some word) = true /\ atoi word = Some input.
Proof.
  intros words input H.
  pose proof (selected_in_menu words input H) as Hrange.
  split; [ exact Hrange | split ].
  - assert (E : (input = 1 \/ input = 2 \/ input = 3 \/ input = 4)%Z) by lia.
    destruct E as [-> | [-> | [-> | ->]]]; discriminate.
  - induction words as [ | w words IH ]; cbn [get_user_input] in H; [ discriminate | ].
    destruct (is_integer (Some w)) eqn:Hint.
    + destruct (atoi w) as [ n | ] eqn:Hn; [ | discriminate ].
      destruct ((n >=? 1)%Z && (n <=? 4)%Z)%bool.
      * injection H as <-; exists w; split; [ left; reflexivity | ].
        split; assumption.
      * destruct (IH H) as (word & Hin & Hw); exists word.
        split; [ right; exact Hin | exact Hw ].
    + destruct (IH H) as (word & Hin & Hw); exists word.
      split; [ right; exact Hin | exact Hw ].
Qed.

End MenuInput.

(** ** Phase input: surrounding white space *)

Section PhaseTrim.

Local Open Scope string_scope.

Context {F D : Type} {ops : FloatOps F} {dops : DoubleOps F D}.
Variable sscanf_lf : string -> option D.

Lemma substring_whole (n : nat) (s : string) :
  (String.length s <= n)%nat -> substring 0 n s = s.
Proof.
  revert n; induction s as [ | c s IH ]; intros [ | n ] H; simpl in *;
    try reflexivity; try lia.
  f_equal; apply IH; lia.
Qed.

Lemma list_ascii_of_append (a b : string) :
  list_ascii_of_string (a ++ b) = (list_ascii_of_string a ++ list_ascii_of_string b)%list.
Proof. induction a as [ | c a IH ]; simpl; [ reflexivity | f_equal; exact IH ]. Qed.

Lemma string_of_list_app (a b : list ascii) :
  string_of_list_ascii (a ++ b)%list = string_of_list_ascii a ++ string_of_list_ascii b.
Proof. induction a as [ | c a IH ]; simpl; [ reflexivity | f_equal; exact IH ]. Qed.

Lemma append_length (a b : string) :
  String.length (a ++ b) = (String.length a + String.length b)%nat.
Proof. induction a as [ | c a IH ]; simpl; [ reflexivity | f_equal; exact IH ]. Qed.

Lemma skip_blank_prefix (l s : string) :
  Forall (fun c => isspace c = true) (list_ascii_of_string l) ->
  skip_spaces (l ++ s) = skip_spaces s.
Proof.
  induction l as [ | c l IH ]; simpl; intros H; [ reflexivity | ].
  inversion H as [ | ? ? Hc Hl ]; subst; rewrite Hc; apply IH; exact Hl.
Qed.

Lemma cut_blank_suffix (t r : string) :
  Forall (fun c => isspace c = true) (list_ascii_of_string r) ->
  cut_trailing_spaces (t ++ r) = cut_trailing_spaces t.
Proof.
  intros Hr; unfold cut_trailing_spaces.
  rewrite list_ascii_of_append, rev_app_distr, string_of_list_app.
  rewrite skip_blank_prefix; [ reflexivity | ].
  rewrite list_ascii_of_string_of_list_ascii.
  apply Forall_rev; exact Hr.
Qed.

Lemma trimmed_of_padded (s r : string) :
  Forall (fun c => isspace c = true) (list_ascii_of_string r) ->
  cut_trailing_spaces (skip_spaces (s ++ r)) = cut_trailing_spaces (skip_spaces s).
Proof.
  intros Hr; induction s as [ | c s IH ].
  - simpl append.
    rewrite <- (skip_blank_prefix r "" Hr).
    replace (r ++ "") with r; [ reflexivity | ].
    clear; induction r as [ | c r IH ]; simpl; [ reflexivity | f_equal; exact IH ].
  - simpl; destruct (isspace c); [ exact IH | ].
    apply (cut_blank_suffix (String c s) r Hr).
Qed.

Lemma padding_ignored (l s r : string) :
  Forall (fun c => isspace c = true) (list_ascii_of_string l) ->
  Forall (fun c => isspace c = true) (list_ascii_of_string r) ->
  (String.length (l ++ s ++ r) <= 127)%nat ->
  parse_phase_input_to_rad sscanf_lf (Some (l ++ s ++ r)) =
  parse_phase_input_to_rad sscanf_lf (Some s).
Proof.
  intros Hl Hr Hlen; unfold parse_phase_input_to_rad, strncpy_127.
  rewrite !append_length in Hlen.
  rewrite (substring_whole 127 (l ++ s ++ r))
    by (rewrite !append_length; exact Hlen).
  rewrite (substring_whole 127 s) by lia.
  rewrite (skip_blank_prefix l (s ++ r) Hl), (trimmed_of_padded s r Hr).
  reflexivity.
Qed.

(** X15.  White space around the phase text does not count: padded with
    blanks, tabs or the newline [fgets] leaves, on either side, a text of
    at most 127 characters parses to the same result as the bare text. *)
Theorem phase_text_padding_ignored :
  forall l s r : string,
    Forall (fun c => isspace c = true) (list_ascii_of_string l) ->
    Forall (fun c => isspace c = true) (list_ascii_of_string r) ->
    (String.length (l ++ s ++ r) <= 127)%nat ->
    parse_phase_input_to_rad sscanf_lf (Some (l ++ s ++ r)) =
    parse_phase_input_to_rad sscanf_lf (Some s).
Proof. exact padding_ignored. Qed.

(** X16.  A null pointer is refused, and so is a line of white space
    only, given that the C library's conversion reads no number from the
    empty text. *)
Theorem phase_text_blank_refused :
  forall s : string,
    sscanf_lf "" = None ->
    Forall (fun c => isspace c = true) (list_ascii_of_string s) ->
    (String.length s <= 127)%nat ->
    parse_phase_input_to_rad sscanf_lf None = None /\
    parse_phase_input_to_rad sscanf_lf (Some s) = None.
Proof.
  intros s Hscan Hs Hlen; split; [ reflexivity | ].
  assert (E : s = s ++ "" ++ "")
    by (clear; induction s as [ | c s IH ]; simpl; [ reflexivity | f_equal; exact IH ]).
  rewrite E, (padding_ignored s "" "" Hs (Forall_nil _)) by (rewrite <- E; exact Hlen).
  change (parse_phase_input_to_rad sscanf_lf (Some ""))
    with (option_map Dto_float (sscanf_lf "")).
  rewrite Hscan; reflexivity.
Qed.

End PhaseTrim.

(** ** Configuration handlers *)

Section HandlerInvariants.

Local Open Scope R_scope.

Variable sscanf_lf : string -> option R.

Lemma square_clamps_duty (st : config R) (fre amp duty : option R) :
  0 <= duty_cycle (square st fre amp duty) <= 1.
Proof.
  unfold square; cbn [duty_cycle]; exact_ops; unfold Exact.ltb.
  destruct (Rlt_dec (scanned duty (/ 2)) 0);
    repeat destruct (Rlt_dec _ _); lra.
Qed.

Lemma configure_keeps (st : config R) (rq : request R) :
  fre_saw st = 1 /\ 0 <= duty_cycle st <= 1 ->
  fre_saw (configure sscanf_lf st rq) = 1 /\
  0 <= duty_cycle (configure sscanf_lf st rq) <= 1.
Proof.
  intros [Hf Hd]; destruct rq; cbn [configure].
  - unfold sine; cbn [fre_saw duty_cycle]; split; assumption.
  - split; [ exact Hf | apply square_clamps_duty ].
  - unfold triangle; cbn [fre_saw duty_cycle]; split; assumption.
  - unfold sawtooth; cbn [fre_saw duty_cycle]; split; assumption.
Qed.

(** X17.  Whatever is entered, in whatever order: the stored duty cycle
    stays within [0, 1], and the sawtooth's frequency stays at its
    start-up value 1 (its handler asks for amplitude and slope only), so
    the sawtooth display is never refused. *)
Theorem session_keeps_duty_and_sawtooth_frequency :
  forall requests : list (request R),
    0 <= duty_cycle (session sscanf_lf requests) <= 1 /\
    fre_saw (session sscanf_lf requests) = 1 /\
    exists d, sawtooth_plot (session sscanf_lf requests) = Some d.
Proof.
  intros requests; unfold session.
  assert (H : fre_saw (fold_left (configure sscanf_lf) requests initial_config) = 1 /\
              0 <= duty_cycle (fold_left (configure sscanf_lf) requests initial_config) <= 1).
  { assert (H0 : fre_saw (initial_config (F := R)) = 1 /\
                 0 <= duty_cycle (initial_config (F := R)) <= 1)
      by (cbn; split; lra).
    revert H0; generalize (initial_config (F := R)).
    induction requests as [ | rq requests IH ]; intros st Hst; [ exact Hst | ].
    apply IH, configure_keeps; exact Hst. }
  destruct H as [Hf Hd]; split; [ exact Hd | split; [ exact Hf | ] ].
  unfold sawtooth_plot; exact_ops; rewrite Hf, (leb_false 1 0) by lra.
  eexists; reflexivity.
Qed.

End HandlerInvariants.

Section ClampBinary32.

Variable sinf : B32.float32 -> B32.float32.

(** X18.  The clamp of [square()] in binary32: a NaN that is read for the
    duty cycle is stored as it is, since it compares neither below 0 nor
    above 1; every other value, the infinities included, is stored as a
    number from 0 to 1. *)
Theorem square_clamp_binary32 :
  forall (st : config B32.float32) (fre amp : option B32.float32)
         (x : B32.float32),
    let stored := duty_cycle (square (ops := B32.ops sinf) st fre amp (Some x)) in
    (x = S754_nan -> stored = S754_nan) /\
    (x <> S754_nan ->
       SFleb (B32.of_Z 0) stored = true /\ SFleb stored (B32.of_Z 1) = true).
Proof.
  intros st fre amp x; unfold square; cbn [duty_cycle scanned].
  cbn [Fltb FofZ B32.ops].
  change (B32.of_Z 0) with (S754_zero false).
  change (B32.of_Z 1) with (S754_finite false 8388608 (-23)).
  split; [ intros ->; reflexivity | intros Hx ].
  destruct x as [ [ | ] | [ | ] | | [ | ] m e ]; try congruence;
    try (split; reflexivity).
  unfold SFltb, SFleb; cbn [SFcompare].
  assert (E : Pos.compare_cont Eq m 8388608
              = CompOpp (Pos.compare_cont Eq 8388608 m))
    by (rewrite Pos.compare_cont_antisym; reflexivity).
  destruct (Z.compare_spec (-23) e) as [<- | Hlt | Hgt].
  - destruct (Pos.compare_cont Eq 8388608 m) eqn:Hm; cbn [SFcompare];
      rewrite ?Z.compare_refl, ?E, ?Hm; split; reflexivity.
  - cbn [SFcompare]; rewrite Z.compare_refl; split; reflexivity.
  - cbn [SFcompare].
    rewrite (proj2 (Z.compare_lt_iff e (-23))) by lia; split; reflexivity.
Qed.

End ClampBinary32.

(** ** Pictures *)

Section Pictures.

Local Open Scope R_scope.

Lemma repeat_nth_in_range (x d : R) (n k : nat) : nth k (repeat x n) d = x \/ nth k (repeat x n) d = d.
Proof.
  destruct (Nat.lt_ge_cases k n) as [H | H].
  - left; rewrite (nth_indep _ d x) by (rewrite repeat_length; exact H).
    apply nth_repeat.
  - right; apply nth_overflow; rewrite repeat_length; exact H.
Qed.

(** X19.  A signal that is 0 throughout, drawn with a nonzero amplitude,
    covers the axis row [rows / 2] with stars and leaves every other cell
    blank: no dash is left to see. *)
Theorem zero_signal_covers_axis :
  forall (N rows : Z) (amp : R),
    (0 < N)%Z -> (0 < rows)%Z -> amp <> 0 ->
    exists cv : canvas,
      print_ascii_from_yvals (Some (repeat 0 (Z.to_nat N))) N rows amp
        = Printed (map string_of_list_ascii cv) /\
      shaped (Z.to_nat rows) (Z.to_nat N) cv /\
      forall r c, (0 <= r < rows)%Z -> (0 <= c < N)%Z ->
        get_cell cv r c = if (r =? rows / 2)%Z then star else blank.
Proof.
  intros N rows amp HN Hrows Hamp.
  destruct (rendered_canvas (repeat 0 (Z.to_nat N)) N rows amp HN Hrows)
    as (cv & Hrun & Hshape & Hcells).
  { rewrite repeat_length; lia. }
  exists cv; split; [ exact Hrun | split; [ exact Hshape | ] ].
  intros r c Hr Hc; rewrite (Hcells r c Hr Hc); exact_ops.
  assert (E : nth (Z.to_nat c) (repeat 0 (Z.to_nat N)) 0 = 0)
    by (destruct (repeat_nth_in_range 0 0 (Z.to_nat N) (Z.to_nat c)); assumption).
  rewrite E, value_row_of_zero, mid_row_nonzero_amp by assumption.
  destruct (r =? rows / 2)%Z; reflexivity.
Qed.

Lemma square_levels (st : config R) (t : R) :
  sample_base_waveform st 2 t = amp_squ st \/
  sample_base_waveform st 2 t = - amp_squ st \/
  sample_base_waveform st 2 t = 0 /\ fre_squ st <= 0.
Proof.
  unfold sample_base_waveform; exact_ops; unfold Exact.leb.
  destruct (Rle_dec (fre_squ st) 0); [ right; right; split; [ reflexivity | assumption ] | ].
  destruct (Exact.ltb _ _); [ left | right; left ]; reflexivity.
Qed.

(** X20.  The square display with [f > 0] and a positive amplitude draws
    on the top and the bottom row only: every star of its grid is on row
    0 or on row 20. *)
Theorem square_display_two_rows :
  forall st : config R,
    0 < fre_squ st -> 0 < amp_squ st ->
    exists (d : display R) (cv : canvas),
      square_plot st = Some d /\
      plot d = Printed (map string_of_list_ascii cv) /\
      shaped 21 100 cv /\
      forall r c, (0 <= r < 21)%Z -> (0 <= c < 100)%Z ->
        get_cell cv r c = star -> r = 0%Z \/ r = 20%Z.
Proof.
  intros st Hf Hamp; unfold square_plot; exact_ops.
  rewrite (leb_false _ _ Hf).
  match goal with
  | |- context [print_ascii_from_yvals (Some ?yv) ?N ?rows ?amp] =>
      destruct (rendered_canvas yv N rows amp) as (cv & Hrun & Hshape & Hcells);
        [ reflexivity | reflexivity | rewrite for_range_length; reflexivity | ]
  end.
  eexists; exists cv; split; [ reflexivity | ].
  cbn [plot]; split; [ exact Hrun | split; [ exact Hshape | ] ].
  intros r c Hr Hc; rewrite (Hcells r c Hr Hc).
  rewrite (for_range_nth _ _ _ _ c) by exact Hc.
  match goal with
  | |- context [sample_base_waveform st 2 ?t] =>
      destruct (square_levels st t) as [E | [E | [_ Hle]]]; [ | | lra ];
        rewrite E
  end.
  - rewrite value_row_top by (try reflexivity; lra).
    destruct (Z.eqb_spec r 0); [ left; assumption | ].
    destruct (r =? mid_row ASCII_ROWS (amp_squ st))%Z; discriminate.
  - rewrite value_row_bottom by (try reflexivity; lra).
    change (ASCII_ROWS - 1)%Z with 20%Z.
    destruct (Z.eqb_spec r 20); [ right; assumption | ].
    destruct (r =? mid_row ASCII_ROWS (amp_squ st))%Z; discriminate.
Qed.

End Pictures.

(** ** More runs at concrete inputs *)

Section MoreRuns.

Local Open Scope R_scope.
Local Open Scope string_scope.

Lemma render_grid_cells_run :
  exists cv : canvas,
    print_ascii_from_yvals (Some [0; 1; -1]) 3 5 1
      = Printed (map string_of_list_ascii cv) /\
    shaped 5 3 cv.
Proof.
  destruct (render_grid_cells [0; 1; -1] 3 5 1) as (cv & Hrun & Hshape & _);
    [ lia | lia | simpl; lia | ].
  exists cv; split; assumption.
Defined.

Lemma rows_inside_canvas_run :
  (0 <= value_row 21 (1 : R) (/ 2) < 21)%Z /\ (0 <= mid_row 21 (1 : R) < 21)%Z.
Proof. apply (rows_inside_canvas 21 (1 : R) (/ 2)); lia. Defined.

Lemma base_waveforms_periodic_run :
  sample_base_waveform initial_config 1 (/ 4 + 1 / 1)
    = sample_base_waveform initial_config 1 (/ 4) /\
  sample_base_waveform initial_config 2 (/ 4 + 1 / 1)
    = sample_base_waveform initial_config 2 (/ 4) /\
  sample_base_waveform initial_config 3 (/ 4 + 1 / 1)
    = sample_base_waveform initial_config 3 (/ 4) /\
  sample_base_waveform initial_config 4 (/ 4 + 1 / 1)
    = sample_base_waveform initial_config 4 (/ 4).
Proof.
  destruct (base_waveforms_periodic initial_config (/ 4)) as (H1 & H2 & H3 & H4).
  repeat split;
    [ apply H1 | apply H2 | apply H3 | apply H4 ]; cbn; lra.
Defined.

Lemma base_sample_within_amplitude_run :
  Rabs (sample_base_waveform initial_config 3 3) <= Rabs (amp_tra initial_config).
Proof.
  destruct (base_sample_within_amplitude initial_config 3) as (_ & _ & H & _);
    [ lra | exact H ].
Defined.

Lemma square_extreme_duty_run :
  sample_base_waveform (with_duty initial_config 0) 2 (/ 3) = - (1) /\
  sample_base_waveform (with_duty initial_config 1) 2 (/ 3) = 1.
Proof.
  split.
  - destruct (square_extreme_duty (with_duty initial_config 0) (/ 3)) as [H _];
      [ cbn; lra | lra | ].
    apply H; cbn; lra.
  - destruct (square_extreme_duty (with_duty initial_config 1) (/ 3)) as [_ H];
      [ cbn; lra | lra | ].
    apply H; cbn; lra.
Defined.

Lemma sawtooth_ramp_run :
  sample_base_waveform initial_config 4 0 = - (1).
Proof.
  destruct (sawtooth_ramp initial_config) as (_ & H & _); [ cbn; lra | exact H ].
Defined.

Lemma renderer_orientation_run :
  value_row 21 (1 : R) 1 = 0%Z /\ value_row 21 (1 : R) (- (1)) = 20%Z.
Proof.
  destruct (renderer_orientation 21 1) as (Htop & Hbottom & _); [ lia | lra | ].
  split; [ apply Htop; lra | apply Hbottom; lra ].
Defined.

Lemma sine_plot_samples_table_signal_run :
  exists d : display R,
    sine_plot sine_quarter_phase = Some d /\
    List.length (yval d) = 100%nat.
Proof.
  destruct (sine_plot_samples_table_signal sine_quarter_phase) as (d & Hd & Hy);
    [ cbn; lra | ].
  exists d; split; [ exact Hd | rewrite Hy; apply for_range_length ].
Defined.

Lemma zero_base_amplitude_leaves_carrier_run :
  AM_sample sine_amplitude_zero 1 2 3 (/ 2) (/ 8) = 2 * sin (2 * PI * 3 * / 8).
Proof.
  destruct (zero_base_amplitude_leaves_carrier sine_amplitude_zero 1 2 3 (/ 2) (/ 8))
    as (H & _); [ reflexivity | exact H ].
Defined.

Lemma is_integer_accepts_signed_digits_run :
  is_integer (Some "+12") = true /\
  exists sign digits, Some "-7" = Some (sign ++ digits) /\ digits <> "".
Proof.
  split.
  - apply (is_integer_accepts_signed_digits (Some "+12")).
    exists "+", "12"; repeat split; auto; [ discriminate | ].
    repeat constructor.
  - destruct (proj1 (is_integer_accepts_signed_digits (Some "-7")) eq_refl)
      as (sign & digits & E & _ & Hd & _).
    exists sign, digits; split; assumption.
Defined.

Lemma menu_selection_in_range_run :
  (1 <= 3 <= 4)%Z /\ select_menu_item 3 <> wrong_number.
Proof.
  destruct (menu_selection_in_range ["x"; "7"; "+3"; "2"] 3) as (H1 & H2 & _);
    [ reflexivity | split; assumption ].
Defined.

Lemma phase_text_padding_ignored_run :
  parse_phase_input_to_rad digits_only_scanner (Some ("  " ++ "d:90" ++ " "))
  = parse_phase_input_to_rad digits_only_scanner (Some "d:90").
Proof.
  apply (phase_text_padding_ignored digits_only_scanner "  " "d:90" " ");
    [ repeat constructor | repeat constructor | simpl; lia ].
Defined.

Lemma phase_text_blank_refused_run :
  parse_phase_input_to_rad digits_only_scanner (Some "   ") = None.
Proof.
  destruct (phase_text_blank_refused digits_only_scanner "   ") as [_ H];
    [ reflexivity | repeat constructor | simpl; lia | exact H ].
Defined.

Lemma square_clamp_binary32_run :
  duty_cycle (square (ops := B32.ops (fun x => x))
                (initial_config (ops := B32.ops (fun x => x))) None None
                (Some S754_nan)) = S754_nan /\
  SFleb (duty_cycle (square (ops := B32.ops (fun x => x))
                       (initial_config (ops := B32.ops (fun x => x))) None None
                       (Some (S754_infinity false)))) (B32.of_Z 1) = true.
Proof.
  split.
  - apply (square_clamp_binary32 (fun x => x)); reflexivity.
  - apply (square_clamp_binary32 (fun x => x)); discriminate.
Defined.

Lemma zero_signal_covers_axis_run :
  exists cv : canvas,
    print_ascii_from_yvals (Some (repeat 0 3)) 3 5 1
      = Printed (map string_of_list_ascii cv) /\
    get_cell cv 2 1 = star /\ get_cell cv 0 1 = blank.
Proof.
  destruct (zero_signal_covers_axis 3 5 1) as (cv & Hrun & _ & Hcells);
    [ lia | lia | lra | ].
  exists cv; split; [ exact Hrun | ].
  split; [ apply (Hcells 2%Z 1%Z); lia | apply (Hcells 0%Z 1%Z); lia ].
Defined.

Lemma square_display_two_rows_run :
  exists (d : display R) (cv : canvas),
    square_plot initial_config = Some d /\
    plot d = Printed (map string_of_list_ascii cv) /\
    shaped 21 100 cv.
Proof.
  destruct (square_display_two_rows initial_config)
    as (d & cv & Hd & Hp & Hs & _); [ cbn; lra | cbn; lra | ].
  exists d, cv; repeat split; assumption || apply Hs.
Defined.

End MoreRuns.

(** ** Sample times *)

Section SampleTimes.

Local Open Scope R_scope.

Lemma loop_times_in_period (P : R) (N : Z) (A : Type) (body : R -> A) :
  0 < P -> (0 < N)%Z ->
  Forall (fun row : R * A => 0 <= fst row < P)
    (for_range N (fun i => (IZR i * (P / IZR N), body (IZR i * (P / IZR N))))).
Proof.
  intros HP HN; unfold for_range; apply Forall_forall; intros row Hrow.
  apply in_map_iff in Hrow; destruct Hrow as (k & <- & Hk); cbn [fst].
  apply in_seq in Hk.
  assert (H0 : (0 <= Z.of_nat k)%Z) by lia.
  assert (H1 : (Z.of_nat k + 1 <= N)%Z) by lia.
  apply IZR_le in H0, H1; rewrite plus_IZR in H1.
  assert (HN' : 0 < IZR N) by (apply IZR_lt; exact HN).
  assert (Hstep : 0 < P / IZR N) by (apply Rdiv_lt_0_compat; assumption).
  assert (E : P = IZR N * (P / IZR N)) by (field; lra).
  split; [ apply Rmult_le_pos; lra | ].
  rewrite E at 2; apply Rmult_lt_compat_r; lra.
Qed.

Lemma table_of_some (F : Type) (d d' : display F) :
  Some d' = Some d -> table d' = table d.
Proof. intros E; injection E as ->; reflexivity. Qed.

(** X21.  The table of every display covers one period, end excluded:
    each time of a base display lies in [0, 1/f), each time of a
    modulation routine in [0, period), with period [1/fc] for [fc > 0] and
    1 otherwise. *)
Theorem table_times_within_one_period :
  forall st : config R,
    (forall d, sine_plot st = Some d ->
       Forall (fun row => 0 <= fst row < 1 / fre_sin st) (table d)) /\
    (forall d, square_plot st = Some d ->
       Forall (fun row => 0 <= fst row < 1 / fre_squ st) (table d)) /\
    (forall d, triangle_plot st = Some d ->
       Forall (fun row => 0 <= fst row < 1 / fre_tra st) (table d)) /\
    (forall d, sawtooth_plot st = Some d ->
       Forall (fun row => 0 <= fst row < 1 / fre_saw st) (table d)) /\
    (forall waveform_type Ac fc m,
       Forall (fun row => 0 <= fst row < carrier_period fc)
         (table (run_AM st waveform_type Ac fc m)) /\
       Forall (fun row => 0 <= fst row < carrier_period fc)
         (table (run_FM st waveform_type Ac fc m)) /\
       Forall (fun row => 0 <= fst row < carrier_period fc)
         (table (run_PWM st waveform_type fc Ac))).
Proof.
  intros st.
  split; [ | split; [ | split; [ | split ] ] ].
  - intros d; unfold sine_plot; exact_ops; unfold Exact.leb.
    destruct (Rle_dec (fre_sin st) 0); [ discriminate | ].
    intros E; apply table_of_some in E; cbn [table] in E; rewrite <- E.
    apply (loop_times_in_period (1 / fre_sin st) TABLE_SAMPLES _
             (fun t => amp_sin st * sin (2 * PI * fre_sin st * t + phase_sin st)));
      [ apply Rdiv_lt_0_compat; lra | reflexivity ].
  - intros d; unfold square_plot; exact_ops; unfold Exact.leb.
    destruct (Rle_dec (fre_squ st) 0); [ discriminate | ].
    intros E; apply table_of_some in E; cbn [table] in E; rewrite <- E.
    apply (loop_times_in_period (1 / fre_squ st) TABLE_SAMPLES _
             (sample_base_waveform st 2));
      [ apply Rdiv_lt_0_compat; lra | reflexivity ].
  - intros d; unfold triangle_plot; exact_ops; unfold Exact.leb.
    destruct (Rle_dec (fre_tra st) 0); [ discriminate | ].
    intros E; apply table_of_some in E; cbn [table] in E; rewrite <- E.
    apply (loop_times_in_period (1 / fre_tra st) TABLE_SAMPLES _
             (sample_base_waveform st 3));
      [ apply Rdiv_lt_0_compat; lra | reflexivity ].
  - intros d; unfold sawtooth_plot; exact_ops; unfold Exact.leb.
    destruct (Rle_dec (fre_saw st) 0); [ discriminate | ].
    intros E; apply table_of_some in E; cbn [table] in E; rewrite <- E.
    apply (loop_times_in_period (1 / fre_saw st) TABLE_SAMPLES _
             (sample_base_waveform st 4));
      [ apply Rdiv_lt_0_compat; lra | reflexivity ].
  - intros wt Ac fc m; unfold run_AM, run_FM, run_PWM; cbn [table]; exact_ops.
    pose proof (carrier_period_pos fc) as HP.
    split; [ | split ].
    + apply (loop_times_in_period (carrier_period fc) TABLE_SAMPLES _
               (AM_sample st wt Ac fc m)); [ exact HP | reflexivity ].
    + apply (loop_times_in_period (carrier_period fc) TABLE_SAMPLES _
               (FM_sample st wt Ac fc m)); [ exact HP | reflexivity ].
    + apply (loop_times_in_period (carrier_period fc) TABLE_SAMPLES _
               (PWM_sample st wt Ac (carrier_period fc))); [ exact HP | reflexivity ].
Qed.

Lemma table_times_within_one_period_run :
  exists d : display R,
    square_plot initial_config = Some d /\
    Forall (fun row => 0 <= fst row < 1 / 1) (table d).
Proof.
  destruct (table_times_within_one_period initial_config) as (_ & H & _).
  assert (E : exists d : display R, square_plot initial_config = Some d).
  { unfold square_plot; exact_ops.
    rewrite (leb_false (fre_squ initial_config) 0) by (cbn; lra).
    eexists; reflexivity. }
  destruct E as (d & E); exists d; split; [ exact E | exact (H d E) ].
Defined.

End SampleTimes.

(** * The claims on the float interface, and in binary32 *)

(** ** C2: the sine display *)

Section SineDisplayFloat.

Local Open Scope cfloat_scope.

Lemma sine_plot_lists {F : Type} {ops : FloatOps F} (st : config F) :
  (fre_sin st <=? #0) = false -> (fre_sin st =? #0) = false ->
  exists d : display F,
    sine_plot st = Some d /\
    table d =
      for_range 8 (fun i =>
        let t := #i * (#1 / fre_sin st / #8) in
        (t, amp_sin st * Fsin (#2 * FPI * fre_sin st * t + phase_sin st))) /\
    yval d =
      for_range 100 (fun i =>
        amp_sin st *
        Fsin (#2 * FPI * fre_sin st *
              (#i * (#1 / fre_sin st / #100)
               + phase_sin st / (#2 * FPI * fre_sin st)))).
Proof.
  intros Hle Heq; unfold sine_plot; rewrite Hle, Heq.
  eexists; split; [ reflexivity | split; reflexivity ].
Qed.

(** C2.  On the float interface, for a frequency that compares neither
    [<= 0.0f] nor [== 0.0f]: the eight table values are
    [amp * sinf (2*PI*f*t_i + phase)] at [t_i = i * ((1/f)/8)], phase
    inside the angle, and the hundred plot values are
    [amp * sinf (2*PI*f * (i*((1/f)/100) + phase/(2*PI*f)))], phase as a
    shift of the time and nowhere else.  For phase pi/2 and [f = 1]: in
    exact arithmetic the table's value at [t = 0] is [amp * sin (pi/2)]
    with [sin (pi/2) = 1] and the first plot value is the same number; in
    binary32 the shifted time gives back the angle [PI / 2] bit for bit,
    so both are the one float [amp * sinf (PI / 2)], while at the next
    plot sample the two forms part: the plot hands [sinf] the float
    [13703866 * 2^-23], the phase-in-angle form of the same time would
    hand it [13703867 * 2^-23]. *)
Theorem sine_table_phase_in_angle_plot_phase_as_shift :
  (forall (F : Type) (ops : FloatOps F) (st : config F),
     (fre_sin st <=? #0) = false -> (fre_sin st =? #0) = false ->
     exists d : display F,
       sine_plot st = Some d /\
       table d =
         for_range 8 (fun i =>
           let t := #i * (#1 / fre_sin st / #8) in
           (t, amp_sin st * Fsin (#2 * FPI * fre_sin st * t + phase_sin st))) /\
       yval d =
         for_range 100 (fun i =>
           amp_sin st *
           Fsin (#2 * FPI * fre_sin st *
                 (#i * (#1 / fre_sin st / #100)
                  + phase_sin st / (#2 * FPI * fre_sin st))))) /\
  (forall st : config R,
     fre_sin st = 1%R -> phase_sin st = (PI / 2)%R ->
     exists d : display R,
       sine_plot st = Some d /\
       sin (PI / 2) = 1%R /\
       nth 0 (table d) (0%R, 0%R) = (0%R, (amp_sin st * sin (PI / 2))%R) /\
       nth 0 (yval d) 0%R = (amp_sin st * sin (PI / 2))%R) /\
  (forall (sinf : B32.float32 -> B32.float32) (st : config B32.float32),
     fre_sin st = B32.of_Z 1 -> phase_sin st = half_pi ->
     let ops := B32.ops sinf in
     exists d : display B32.float32,
       sine_plot st = Some d /\
       nth 0 (table d) (S754_nan, S754_nan) =
         (S754_zero false, amp_sin st * Fsin half_pi) /\
       nth 0 (yval d) S754_nan = amp_sin st * Fsin half_pi /\
       nth 1 (yval d) S754_nan = amp_sin st * Fsin (B32.mk 13703866 (-23)) /\
       #2 * FPI * fre_sin st * (#1 * (#1 / fre_sin st / #100)) + phase_sin st
         = B32.mk 13703867 (-23)).
Proof.
  split; [ | split ].
  - intros F ops st; apply sine_plot_lists.
  - intros st Hf Hphase.
    destruct (sine_display_exact st) as (d & Hd & _ & _ & Hq);
      [ rewrite Hf; lra | ].
    exists d; split; [ exact Hd | apply Hq; assumption ].
  - intros sinf st Hf Hphase ops.
    destruct (sine_plot_lists (ops := ops) st) as (d & Hd & Ht & Hy);
      [ rewrite Hf; reflexivity | rewrite Hf; reflexivity | ].
    exists d; split; [ exact Hd | ].
    rewrite Ht, Hy; change 0%nat with (Z.to_nat 0); change 1%nat with (Z.to_nat 1).
    rewrite !for_range_nth by lia; cbv zeta; rewrite Hf, Hphase.
    repeat split; reflexivity.
Qed.

End SineDisplayFloat.

(** ** C4: the square table *)

Section SquareTableFloat.

Local Open Scope cfloat_scope.





End SquareTableFloat.

(** ** C5: the normalized base value *)

Section NormalizationFloat.

Local Open Scope cfloat_scope.




End NormalizationFloat.

(** ** C8: the triangle *)

Section TriangleFloat.

Local Open Scope cfloat_scope.

(** C8 as stated fails in binary32 at the crest: with amplitude [0.1f]
    and frequency 1, at [t = 0.5] the position is one half exactly and the
    sample is [3 * amp - 4 * amp * 0.5] as rounded, [0.1f] plus one unit
    in the last place, not [+amplitude]. *)
Lemma triangle_crest_binary32 :
  SFltb (B32.of_Z 0) (fre_tra triangle_tenth) = true /\
  SFdiv B32.prec B32.emax
    (B32.fmod (B32.mk 1 (-1))
       (SFdiv B32.prec B32.emax (B32.of_Z 1) (fre_tra triangle_tenth)))
    (SFdiv B32.prec B32.emax (B32.of_Z 1) (fre_tra triangle_tenth))
    = B32.mk 1 (-1) /\
  amp_tra triangle_tenth = tenth /\
  sample_base_waveform (ops := binary32) triangle_tenth 3 (B32.mk 1 (-1))
    = B32.mk 13421774 (-27) /\
  SFeqb (sample_base_waveform (ops := binary32) triangle_tenth 3 (B32.mk 1 (-1)))
        (amp_tra triangle_tenth) = false.
Proof. repeat split; vm_compute; reflexivity. Qed.

(** C8, as the code has it.  On the float interface, for a frequency that
    does not compare [<= 0.0f], with [pos = fmodf(t, T) / T]: the sample
    is [-amp + 4*amp*pos] when [pos < 0.5f] and [3*amp - 4*amp*pos]
    otherwise, each as the arithmetic evaluates it.  In exact arithmetic,
    for [f > 0]: the sample is [-amp] at [pos = 0] (reached at [t = 0]) and
    [+amp] at [pos = 0.5] (reached at [t = T/2]); it tends to [-amp] as
    [pos] tends to 1 from below, and to its own value as [pos] tends to 0
    or to 0.5. *)
Theorem triangle_piecewise_and_continuous :
  (forall (F : Type) (ops : FloatOps F) (st : config F) (t : F),
     (fre_tra st <=? #0) = false ->
     let T := #1 / fre_tra st in
     let pos := Ffmod t T / T in
     sample_base_waveform st 3 t =
     if pos <? Fhalf then - amp_tra st + #4 * amp_tra st * pos
     else #3 * amp_tra st - #4 * amp_tra st * pos) /\
  (forall st : config R,
     (0 < fre_tra st)%R ->
     let amp := amp_tra st in
     let pos := Spec.position (fre_tra st) in
     let sample := sample_base_waveform st 3 in
     (forall t, (pos t < / 2)%R -> sample t = (- amp + 4 * amp * pos t)%R) /\
     (forall t, (/ 2 <= pos t)%R -> sample t = (3 * amp - 4 * amp * pos t)%R) /\
     (forall t, pos t = 0%R -> sample t = (- amp)%R) /\
     (forall t, pos t = (/ 2)%R -> sample t = amp) /\
     (pos 0%R = 0%R /\ sample 0%R = (- amp)%R) /\
     (pos (1 / fre_tra st / 2)%R = (/ 2)%R /\ sample (1 / fre_tra st / 2)%R = amp) /\
     (forall eps, (0 < eps)%R -> exists delta, (0 < delta)%R /\
        forall t, (1 - delta < pos t < 1)%R -> (Rabs (sample t - (- amp)) < eps)%R) /\
     (forall eps, (0 < eps)%R -> exists delta, (0 < delta)%R /\
        forall t, (Rabs (pos t - 0) < delta)%R -> (Rabs (sample t - (- amp)) < eps)%R) /\
     (forall eps, (0 < eps)%R -> exists delta, (0 < delta)%R /\
        forall t, (Rabs (pos t - / 2) < delta)%R -> (Rabs (sample t - amp) < eps)%R)).
Proof.
  split; [ | exact triangle_exact ].
  intros F ops st t Hle T pos; unfold sample_base_waveform; rewrite Hle.
  reflexivity.
Qed.

End TriangleFloat.

(** ** The binary32 runs do not depend on [sinf] *)

Section AnySinf.

Variable sinf : B32.float32 -> B32.float32.

Lemma binary32_runs_any_sinf :
  option_map (fun d => map snd (table d))
    (square_plot (ops := B32.ops sinf) (square_at three_e38))
  = Some (map B32.of_Z [1; 1; 1; 1; 1; -1; -1; -1]%Z) /\
  option_map (fun d => map snd (table d))
    (square_plot (ops := B32.ops sinf) (square_at one_e_minus_39))
  = Some (map B32.of_Z [-1; -1; -1; -1; -1; -1; -1; -1]%Z) /\
  sample_base_waveform (ops := B32.ops sinf) triangle_tenth 3 (B32.mk 1 (-1))
    = B32.mk 13421774 (-27) /\
  xnorm_at (ops := B32.ops sinf) triangle_tenth 3 (B32.mk 1 (-1))
    = B32.mk 8388609 (-23) /\
  map fst (table (run_FM (ops := B32.ops sinf) triangle_tenth 3
                    (B32.of_Z 1) (B32.of_Z 1) (B32.of_Z 1)))
    = [S754_zero false; B32.mk 1 (-3); B32.mk 1 (-2); B32.mk 3 (-3);
       B32.mk 1 (-1); B32.mk 5 (-3); B32.mk 3 (-2); B32.mk 7 (-3)].
Proof. repeat split; vm_compute; reflexivity. Qed.

End AnySinf.

(** ** Runs of the four statements *)

Section FloatRuns.

Lemma sine_quarter_phase_run :
  (exists d : display R,
     sine_plot sine_quarter_phase = Some d /\
     List.length (table d) = 8%nat /\ List.length (yval d) = 100%nat) /\
  (exists d : display R,
     sine_plot sine_quarter_phase = Some d /\
     nth 0 (table d) (0%R, 0%R) = (0%R, (1 * sin (PI / 2))%R)) /\
  (exists d : display B32.float32,
     sine_plot (ops := binary32)
       (with_sine (initial_config (ops := binary32))
          (B32.of_Z 1) (B32.of_Z 1) half_pi) = Some d /\
     nth 0 (yval d) S754_nan =
       SFmul B32.prec B32.emax (B32.of_Z 1) (sinf_stand_in half_pi)).
Proof.
  destruct sine_table_phase_in_angle_plot_phase_as_shift as (Hany & Hreal & Hbin).
  split; [ | split ].
  - destruct (Hany R Exact.ops sine_quarter_phase) as (d & Hd & Ht & Hy).
    + apply leb_false; cbn; lra.
    + apply eqb_false; cbn; lra.
    + exists d; split; [ exact Hd | ].
      rewrite Ht, Hy, !for_range_length; split; reflexivity.
  - destruct (Hreal sine_quarter_phase) as (d & Hd & _ & Ht & _);
      [ reflexivity | reflexivity | ].
    exists d; split; [ exact Hd | exact Ht ].
  - destruct (Hbin sinf_stand_in
                (with_sine (initial_config (ops := binary32))
                   (B32.of_Z 1) (B32.of_Z 1) half_pi)) as (d & Hd & _ & Hy & _);
      [ reflexivity | reflexivity | ].
    exists d; split; [ exact Hd | exact Hy ].
Defined.



Lemma triangle_run :
  sample_base_waveform (ops := binary32) triangle_tenth 3 (B32.mk 1 (-1))
    = SFsub B32.prec B32.emax
        (SFmul B32.prec B32.emax (B32.of_Z 3) tenth)
        (SFmul B32.prec B32.emax (SFmul B32.prec B32.emax (B32.of_Z 4) tenth)
           (B32.mk 1 (-1))) /\
  sample_base_waveform initial_config 3 0%R = (- (1))%R /\
  sample_base_waveform initial_config 3 (1 / 1 / 2)%R = 1%R.
Proof.
  destruct triangle_piecewise_and_continuous as (Hany & Hreal).
  split.
  - rewrite (Hany _ binary32 triangle_tenth (B32.mk 1 (-1))); reflexivity.
  - destruct (Hreal initial_config) as (_ & _ & _ & _ & [_ H0] & [_ H2] & _);
      [ cbn; lra | ].
    split; [ exact H0 | exact H2 ].
Defined.

End FloatRuns.
